(** * DataDog UI Apps SDK: the event gate, the context resolver and the
      client facade, embedded from [src/utils/testUtils.ts] and
      [src/client.ts].

    Part I holds the model, Part II the theorems about the behaviour the
    design document states, Part III further properties of the code.  Event
    types, feature types and request types are string enums in the source
    and are strings here. *)

From Stdlib Require Import ZArith List String Ascii Bool Lia.
From Stdlib Require Import Sorted.
From stdpp Require Import base option list gmap strings.
Import ListNotations.

Local Open Scope string_scope.
Set Warnings "-register-all".

(* ===================================================================== *)
(** * Part I: the model *)
(* ===================================================================== *)

(** ** JavaScript values, errors and completions *)

Module Js.

(** The values that cross the SDK's API: contexts, payloads and keys are
    plain JSON-like data.  An object is its table of own properties, in
    insertion order; a lookup takes the first binding of a name. *)
Inductive JsVal : Type :=
| JUndefined
| JNull
| JBool (b : bool)
| JNum (n : Z)
| JNaN
| JStr (s : string)
| JArr (items : list JsVal)
| JObj (props : list (string * JsVal)).

Inductive JsError : Type :=
| Error (message : string)
| TypeError (message : string)
(* named by the design document; raised by capability code *)
| CapabilityNotEnabledError (message : string)
(* any other value thrown, or the reason of a rejected promise *)
| Thrown (v : JsVal).

(** How a call completes: it returns, or it throws. *)
Inductive Outcome (A : Type) : Type :=
| Returned (a : A)
| Threw (e : JsError).
Arguments Returned {A} a.
Arguments Threw {A} e.

Definition bind {A B} (o : Outcome A) (k : A -> Outcome B) : Outcome B :=
  match o with
  | Returned a => k a
  | Threw e => Threw e
  end.

(** ToBoolean: [false], [0], [NaN], the empty string, [null] and
    [undefined] are falsy, everything else is truthy. *)
Definition truthy (v : JsVal) : bool :=
  match v with
  | JUndefined | JNull | JNaN => false
  | JBool b => b
  | JNum n => negb (n =? 0)%Z
  | JStr s => negb (String.eqb s EmptyString)
  | JArr _ | JObj _ => true
  end.

Fixpoint assoc (k : string) (props : list (string * JsVal)) : option JsVal :=
  match props with
  | [] => None
  | (k', v) :: rest => if String.eqb k k' then Some v else assoc k rest
  end.

(** [v.name] for a data property [name]: reading a property of [null] or
    [undefined] throws a TypeError; a primitive or an array has no such
    property and yields [undefined]; an object yields its binding. *)
Definition get (v : JsVal) (name : string) : Outcome JsVal :=
  match v with
  | JUndefined | JNull => Threw (TypeError "Cannot read property of null or undefined")
  | JObj props => Returned (default JUndefined (assoc name props))
  | _ => Returned JUndefined
  end.

(** [xs.includes(s)] for an array of strings held as a value. *)
Definition includes_str (v : JsVal) (s : string) : Outcome bool :=
  match v with
  | JUndefined | JNull => Threw (TypeError "Cannot read property of null or undefined")
  | JArr items =>
      Returned (existsb (fun x => match x with JStr t => String.eqb t s | _ => false end) items)
  | _ => Threw (TypeError "includes is not a function")
  end.

Definition dquote : string := String "034"%char EmptyString.

End Js.

Import Js.

(** ** utils/testUtils.ts: [defer], [memoize], the event gate, [validateKey] *)

Module Utils.

(** *** Promises and [defer]

    Promise objects live in a heap, addressed by allocation order.  A
    promise is settled at most once: the resolving functions handed to the
    executor do nothing once the promise has left [Pending].  A promise
    that was resolved with another promise, as the promise of an async
    function is when the function returns one, follows it.  The values
    that [resolve] and [reject] are called with are plain data, never
    thenables. *)
Inductive PromiseState : Type :=
| Pending
| Fulfilled (v : JsVal)
| Rejected (reason : JsVal)
| Follows (q : nat).

Abbreviation Heap := (list PromiseState).

(** [new Promise((res, rej) => ...)]: a fresh pending promise. *)
Definition new_promise (h : Heap) : nat * Heap := (List.length h, (h ++ [Pending])%list).

(** The promise of a call of an async function whose body returns the
    promise [q]. *)
Definition async_return (q : nat) (h : Heap) : nat * Heap :=
  (List.length h, (h ++ [Follows q])%list).

Definition settle (p : nat) (s : PromiseState) (h : Heap) : Heap :=
  match h !! p with
  | Some Pending => <[p := s]> h
  | _ => h
  end.

(** [interface Deferred<T>]: [resolve] and [reject] are the executor's
    two functions, closed over [promise]. *)
Record Deferred : Type := { promise : nat }.

(** [defer()] *)
Definition defer (h : Heap) : Deferred * Heap :=
  let (p, h') := new_promise h in ({| promise := p |}, h').

Definition resolve (d : Deferred) (t : JsVal) (h : Heap) : Heap :=
  settle (promise d) (Fulfilled t) h.

Definition reject (d : Deferred) (t : JsVal) (h : Heap) : Heap :=
  settle (promise d) (Rejected t) h.

(** [await p] as seen by a waiter when the heap is [h]: [None] while the
    promise is pending (the waiter stays suspended), the value once it is
    fulfilled, the reason thrown once it is rejected.  A chain of
    followed promises has at most as many links as the heap has cells. *)
Inductive Awaited : Type :=
| Yields (v : JsVal)
| Throws (reason : JsVal).

Fixpoint await_at (fuel : nat) (h : Heap) (p : nat) : option Awaited :=
  match h !! p with
  | Some (Fulfilled v) => Some (Yields v)
  | Some (Rejected r) => Some (Throws r)
  | Some (Follows q) =>
      match fuel with
      | 0 => None
      | S fuel' => await_at fuel' h q
      end
  | _ => None
  end.

Definition await (h : Heap) (p : nat) : option Awaited := await_at (List.length h) h p.

(** *** [memoize]

    The closure's two variables: [executed] and [value] ([value] is
    [undefined], here [None], until the first call).  The getter reads
    module state [Env] when it runs. *)
Record Memo (T : Type) : Type := { executed : bool; value : option T }.
Arguments executed {T} _.
Arguments value {T} _.

Definition memo_new {T} : Memo T := {| executed := false; value := None |}.

Definition memoize {Env T} (getter : Env -> T) (env : Env) (c : Memo T)
  : option T * Memo T :=
  let c' :=
    if negb (executed c)
    then {| executed := true; value := Some (getter env) |}
    else c in
  (value c', c').

(** *** The feature registry and the event gate *)

Record FeatureDefinition : Type := { type : string; events : list string }.

(** [isFeatureEnabled] *)
Definition isFeatureEnabled (feature : string) (enabledFeatures : list string) : bool :=
  bool_decide (feature ∈ enabledFeatures).

(** The body of the inner [forEach] of the getter, for one event [e] of a
    feature of type [ft]: create the entry if the map has none, then add
    [ft] to the set stored there. *)
Definition add_feature (ft : string) (m : gmap string (gset string)) (e : string)
  : gmap string (gset string) :=
  let m1 := if bool_decide (is_Some (m !! e)) then m else <[e := ∅]> m in
  match m1 !! e with
  | Some s => <[e := s ∪ {[ft]}]> m1
  | None => m1
  end.

(** The getter handed to [memoize]: the reverse map, event to the set of
    feature types that unlock it. *)
Definition reverseMap (features : list FeatureDefinition)
  : gmap string (gset string) :=
  foldl (fun m feature => foldl (add_feature (type feature)) m (events feature))
        ∅ features.

Definition getFeatureTypesByEvent
  : list FeatureDefinition -> Memo (gmap string (gset string)) ->
    option (gmap string (gset string)) * Memo (gmap string (gset string)) :=
  memoize reverseMap.

Section Gate.
(** [enabledEvents] (from ../constants) and [features] (from
    ../features) are imported tables, kept abstract here. *)
Variable enabledEvents : gset string.
Variable features : list FeatureDefinition.

(** [isEventEnabled]; the memo cell of [getFeatureTypesByEvent] is
    threaded through. *)
Definition isEventEnabled (event : string) (enabledFeatures : list string)
    (c : Memo (gmap string (gset string)))
  : Outcome bool * Memo (gmap string (gset string)) :=
  if bool_decide (event ∈ enabledEvents) then (Returned true, c)
  else
    let (r, c') := getFeatureTypesByEvent features c in
    match r with
    | None => (Threw (TypeError "Cannot read property of null or undefined"), c')
    | Some featureTypesByEvent =>
        match featureTypesByEvent !! event with
        | None => (Returned false, c')
        | Some enablingFeatures =>
            (Returned (existsb (fun feature => bool_decide (feature ∈ enablingFeatures))
                               enabledFeatures), c')
        end
    end.

(** The memo cell after a sequence of earlier [isEventEnabled] calls. *)
Definition cell_after (calls : list (string * list string))
  : Memo (gmap string (gset string)) :=
  foldl (fun c call => snd (isEventEnabled (fst call) (snd call) c)) memo_new calls.
End Gate.

(** *** [isDefinitionWithKey] and [validateKey] *)

Definition isDefinitionWithKey (defenition : JsVal) : Outcome bool :=
  bind (get defenition "key") (fun k => Returned (negb (negb (truthy k)))).

Definition missing_key_message : string :=
  "Definition missing required field " ++ dquote ++ ".key" ++ dquote.

Definition validateKey (definitionOrKey : JsVal) : Outcome bool :=
  match definitionOrKey with
  | JStr s => Returned (0 <? String.length s)%nat
  | definition =>
      bind (isDefinitionWithKey definition) (fun ok =>
        if negb ok then Threw (Error missing_key_message) else Returned true)
  end.

(** *** Observers used to state the properties *)

(** Calls of [resolve] and [reject] on deferreds of a heap, and
    allocations of further promises. *)
Inductive HeapOp : Type :=
| Resolve (d : Deferred) (t : JsVal)
| Reject (d : Deferred) (t : JsVal)
| Alloc.

Definition heap_op (o : HeapOp) (h : Heap) : Heap :=
  match o with
  | Resolve d t => resolve d t h
  | Reject d t => reject d t h
  | Alloc => snd (new_promise h)
  end.

(** [extends h h']: [h'] has every cell of [h], and every cell of [h]
    that is no longer pending is the same in [h']. *)
Definition extends (h h' : Heap) : Prop :=
(List.length h <= List.length h')%nat
  ∧ ∀ p s, h !! p = Some s → s ≠ Pending → h' !! p = Some s.

(** [unlocks m e f]: the map [m] has an entry for [e] and [f] is in it. *)
Definition unlocks (m : gmap string (gset string)) (e f : string) : Prop :=
  ∃ s, m !! e = Some s ∧ f ∈ s.

(** The results of successive calls of a memoized function, the module
    state being the i-th element of [envs] at the i-th call. *)
Fixpoint call_each {Env T} (f : Env -> Memo T -> option T * Memo T)
    (envs : list Env) (c : Memo T) : list (option T) :=
  match envs with
  | [] => []
  | env :: rest => let (r, c') := f env c in r :: call_each f rest c'
  end.

(** A cell of [getFeatureTypesByEvent] is untouched or holds the map of
    the registry [features]. *)
Definition cell_ok (features : list FeatureDefinition)
    (c : Memo (gmap string (gset string))) : Prop :=
  c = memo_new ∨ c = {| executed := true; value := Some (reverseMap features) |}.

(** The own [key] property of a value, if it has one. *)
Definition own_key (v : JsVal) : option JsVal :=
  match v with
  | JObj props => assoc "key" props
  | _ => None
  end.

Definition key_absent_or_falsy (v : JsVal) : bool :=
  match own_key v with
  | None => true
  | Some k => negb (truthy k)
  end.

End Utils.

Import Utils.

(** ** The child frame's mutable state *)

Module World.

(** A call of the logger. *)
Inductive LogCall : Type :=
| LogError (message : string)
| LogInfo (message : string).

(** An async call parked at its [await]. *)
Inductive Job : Type :=
| InitAwaitsHandshake (context : JsVal).

(** Everything the client's methods read or write: the promise heap, the
    client's own fields [context] and [handshake] (the promise that
    [new Postmate.Model] returns), the async calls parked at an await, the
    calls made on the logger, and [ext], the state owned by the capability
    managers and the transport. *)
Record t (Ext : Type) : Type := {
  heap : Heap;
  context : Deferred;
  handshake : nat;
  suspended : list Job;
  logged : list LogCall;
  ext : Ext
}.
Arguments heap {Ext} _.
Arguments context {Ext} _.
Arguments handshake {Ext} _.
Arguments suspended {Ext} _.
Arguments logged {Ext} _.
Arguments ext {Ext} _.

Definition set_heap {Ext} (h : Heap) (w : t Ext) : t Ext :=
  {| heap := h; context := context w; handshake := handshake w;
     suspended := suspended w; logged := logged w; ext := ext w |}.

Definition set_context {Ext} (d : Deferred) (w : t Ext) : t Ext :=
  {| heap := heap w; context := d; handshake := handshake w;
     suspended := suspended w; logged := logged w; ext := ext w |}.

Definition set_suspended {Ext} (js : list Job) (w : t Ext) : t Ext :=
  {| heap := heap w; context := context w; handshake := handshake w;
     suspended := js; logged := logged w; ext := ext w |}.

Definition log_call {Ext} (c : LogCall) (w : t Ext) : t Ext :=
  {| heap := heap w; context := context w; handshake := handshake w;
     suspended := suspended w; logged := (logged w ++ [c])%list; ext := ext w |}.

End World.

(** ** The contract of a capability manager

    A manager of [./capabilites] is taken as given, with the members the
    client uses.  [subscribeHandler] returns an
    unsubscribe function, [() => void]; the other two methods may throw. *)

Module CapabilityManager.

Record t (Ext Handler : Type) : Type := {
  type : string;
  eventsToSubscribe : list string;
  eventsToTrigger : list string;
  subscribeHandler :
    string -> Handler -> World.t Ext -> (World.t Ext -> World.t Ext) * World.t Ext;
  triggerEvent : string -> JsVal -> World.t Ext -> Outcome unit * World.t Ext;
  handleEvent : string -> JsVal -> World.t Ext -> Outcome unit * World.t Ext
}.
Arguments type {Ext Handler} _.
Arguments eventsToSubscribe {Ext Handler} _.
Arguments eventsToTrigger {Ext Handler} _.
Arguments subscribeHandler {Ext Handler} _.
Arguments triggerEvent {Ext Handler} _.
Arguments handleEvent {Ext Handler} _.

End CapabilityManager.

(** ** client.ts *)

Module DDClient.

Import World.

Section Client.
Variables Ext Handler : Type.
(** [this.capabilityManagers], fixed by the constructor. *)
Variable capabilityManagers : list (CapabilityManager.t Ext Handler).

(** The constructor, as far as the fields above go: [this.context = defer()]
    and [this.handshake = new Postmate.Model(...)], in a frame whose heap
    is [h] and whose managers start from [ext0]. *)
Definition constructor (h : Heap) (ext0 : Ext) : World.t Ext :=
  let (d, h1) := defer h in
  let (hs, h2) := new_promise h1 in
  {| heap := h2; context := d; handshake := hs;
     suspended := []; logged := []; ext := ext0 |}.

Definition getManagerByEventToSubscribeType (eventType : string)
  : option (CapabilityManager.t Ext Handler) :=
  find (fun manager => bool_decide (eventType ∈ CapabilityManager.eventsToSubscribe manager))
       capabilityManagers.

Definition getManagerByEventToTriggerType (eventType : string)
  : option (CapabilityManager.t Ext Handler) :=
  find (fun manager => bool_decide (eventType ∈ CapabilityManager.eventsToTrigger manager))
       capabilityManagers.

(** [on]: the result is the unsubscribe function. *)
Definition on (eventType : string) (handler : Handler) (w : World.t Ext)
  : Outcome (World.t Ext -> World.t Ext) * World.t Ext :=
  match getManagerByEventToSubscribeType eventType with
  | None => (Returned (fun w' => w'), log_call (LogError "Unknown event type") w)
  | Some manager =>
      let (unsubscribe, w') := CapabilityManager.subscribeHandler manager eventType handler w in
      (Returned unsubscribe, w')
  end.

(** [triggerEvent]; an omitted [data] is [undefined] and takes the default
    [{}]. *)
Definition triggerEvent (eventType : string) (data : JsVal) (w : World.t Ext)
  : Outcome unit * World.t Ext :=
  let data := match data with JUndefined => JObj [] | _ => data end in
  match getManagerByEventToTriggerType eventType with
  | None => (Returned tt, log_call (LogError "Unknown event type") w)
  | Some manager => CapabilityManager.triggerEvent manager eventType data w
  end.

(** [getContext], an async function that returns [this.context.promise]:
    the caller gets a promise of its own. *)
Definition getContext (w : World.t Ext) : nat * World.t Ext :=
  let (p, h) := async_return (promise (World.context w)) (heap w) in
  (p, set_heap h w).

(** [init], up to [await this.handshake], where the call is parked. *)
Definition init (context : JsVal) (w : World.t Ext) : World.t Ext :=
  set_suspended (suspended w ++ [InitAwaitsHandshake context])%list w.

(** The rest of [init], once the handshake promise is settled: [None]
    while it is pending; if it was rejected the await throws and nothing
    else runs. *)
Definition init_resume (context : JsVal) (w : World.t Ext) : option (World.t Ext) :=
  match await (heap w) (handshake w) with
  | None => None
  | Some (Throws _) => Some w
  | Some (Yields _) =>
      Some (log_call (LogInfo "dd-apps: sdk handshake: parent <-> child handshake is complete")
              (set_heap (resolve (World.context w) context (heap w)) w))
  end.

(** [handleEvent]: an async function without an await, so its body runs
    at once; a throw inside rejects the promise it returns. *)
Definition handleEvent (eventType : string) (data : JsVal) (w : World.t Ext)
  : Outcome unit * World.t Ext :=
  match getManagerByEventToSubscribeType eventType with
  | None =>
      (Returned tt,
       log_call (LogError "Could not handle event: no corresponding manager found") w)
  | Some manager => CapabilityManager.handleEvent manager eventType data w
  end.

(** What happens to a client between two of its own statements: the host
    calls the model's [init], the handshake promise is settled, the
    application calls [getContext], or the event loop takes the call
    parked longest and resumes it if it can. *)
Inductive Event : Type :=
| HostCallsInit (context : JsVal)
| HandshakeFulfilled (parent : JsVal)
| HandshakeRejected (reason : JsVal)
| AppCallsGetContext
| Turn.

Definition step (ev : Event) (w : World.t Ext) : World.t Ext :=
  match ev with
  | HostCallsInit context => init context w
  | HandshakeFulfilled parent => set_heap (settle (handshake w) (Fulfilled parent) (heap w)) w
  | HandshakeRejected reason => set_heap (settle (handshake w) (Rejected reason) (heap w)) w
  | AppCallsGetContext => snd (getContext w)
  | Turn =>
      match suspended w with
      | [] => w
      | InitAwaitsHandshake context :: rest =>
          match init_resume context (set_suspended rest w) with
          | Some w' => w'
          | None => w
          end
      end
  end.

Definition run (evs : list Event) (w : World.t Ext) : World.t Ext :=
  foldl (fun w ev => step ev w) w evs.

(** What [await this.context.promise] gives in the state [w]. *)
Definition held (w : World.t Ext) : option Awaited :=
  await (heap w) (promise (World.context w)).

(** The two promises of a client are distinct cells of its heap, and the
    context promise follows no other promise. *)
Definition allocated (w : World.t Ext) : Prop :=
  handshake w ≠ promise (World.context w)
  ∧ handshake w < List.length (heap w)
  ∧ (heap w !! promise (World.context w) = Some Pending
     ∨ ∃ v, heap w !! promise (World.context w) = Some (Fulfilled v)).

End Client.

Arguments constructor {Ext} h ext0.
Arguments getManagerByEventToSubscribeType {Ext Handler} capabilityManagers eventType.
Arguments getManagerByEventToTriggerType {Ext Handler} capabilityManagers eventType.
Arguments on {Ext Handler} capabilityManagers eventType handler w.
Arguments triggerEvent {Ext Handler} capabilityManagers eventType data w.
Arguments handleEvent {Ext Handler} capabilityManagers eventType data w.
Arguments getContext {Ext} w.
Arguments init {Ext} context w.
Arguments init_resume {Ext} context w.
Arguments step {Ext} ev w.
Arguments run {Ext} evs w.
Arguments held {Ext} w.
Arguments allocated {Ext} w.

End DDClient.


(** ** utils/testUtils.ts: the test doubles *)

Module TestUtils.

(** [mockContext]; [UiAppFeatureType.DASHBOARD_COG_MENU] is an enum member
    of ../constants. *)
Definition mockContext (DASHBOARD_COG_MENU : string) : JsVal :=
  JObj [("app",
         JObj [("currentUser",
                JObj [("id", JNum 45678); ("name", JStr "User");
                      ("handle", JStr "user@email.com")]);
               ("org", JObj [("id", JNum 12345); ("name", JStr "Corporate overlord")]);
               ("features", JArr [JStr DASHBOARD_COG_MENU]);
               ("debug", JBool true)])].

(** [MockFramePostChildClient], as far as the modal tests use it: its
    [context] deferred, and the calls of [request], which the tests spy
    on.  The heap of promises is carried along. *)
Record MockFramePostChildClient : Type := {
  heap : Heap;
  context : Deferred;
  requests : list (string * JsVal)
}.

(** The constructor: [this.context = defer()]. *)
Definition constructor (h : Heap) : MockFramePostChildClient :=
  let (d, h') := defer h in {| heap := h'; context := d; requests := [] |}.

(** [init(override)]: [this.context.resolve(override || mockContext)];
    the second argument, [sendCallBack], plays no part in these tests. *)
Definition init (DASHBOARD_COG_MENU : string) (override : JsVal)
    (c : MockFramePostChildClient) : MockFramePostChildClient :=
  {| heap := resolve (context c)
               (if truthy override then override else mockContext DASHBOARD_COG_MENU)
               (heap c);
     context := context c;
     requests := requests c |}.

(** [getContext()]: [await this.context.promise]. *)
Definition getContext (c : MockFramePostChildClient) : option Awaited :=
  await (heap c) (promise (context c)).

(** [request(eventType, data)] under the spy of the tests: the call is
    recorded and [response] comes back. *)
Definition request (response : JsVal) (eventType : string) (data : JsVal)
    (c : MockFramePostChildClient) : JsVal * MockFramePostChildClient :=
  (response,
   {| heap := heap c; context := context c;
      requests := (requests c ++ [(eventType, data)])%list |}).

(** [{...o, name: v}] on a table of properties. *)
Fixpoint with_prop (name : string) (v : JsVal) (props : list (string * JsVal))
  : list (string * JsVal) :=
  match props with
  | [] => [(name, v)]
  | (k, x) :: rest =>
      if String.eqb name k then (k, v) :: rest else (k, x) :: with_prop name v rest
  end.

End TestUtils.

(** ** The context-change notification *)

Module ContextChange.

Import World.

(** Modelled from the spec: the handling of the reserved context-changed
    event, which belongs to the capability managers and to the client that
    [client.test.ts] drives, neither of them embedded here; [client.ts]
    only routes the event.  The design document: an
    inbound event of a reserved context-changed type causes the held
    context reference to be replaced by the new payload in full; an update
    replaces the held future with a new resolver, not a second resolution
    of the same one. *)
Definition replace_context {Ext} (payload : JsVal) (w : World.t Ext) : World.t Ext :=
  let (d, h) := defer (heap w) in
  set_context d (set_heap (resolve d payload h) w).

(** Modelled from the spec: a manager handles the context-changed event
    [CONTEXT_CHANGE] when its [handleEvent] on it is that replacement. *)
Definition handles_context_change {Ext Handler} (CONTEXT_CHANGE : string)
    (m : CapabilityManager.t Ext Handler) : Prop :=
  ∀ data w,
    CapabilityManager.handleEvent m CONTEXT_CHANGE data w
    = (Returned tt, replace_context data w).

End ContextChange.

(** ** The modal capability *)

Module Modal.

Import TestUtils.

(** The design document leaves open which check of a capability operation
    runs first. *)
Inductive CheckOrder : Type :=
| ValidateFirst
| EnablementFirst.

Section Open.
(** [UiAppFeatureType.MODALS] and [UiAppRequestType.OPEN_MODAL], enum
    members of ../constants, and what the transport answers. *)
Variables MODALS OPEN_MODAL : string.
Variable response : JsVal.

(** Modelled from the spec: the feature-enablement check of a capability
    operation of [DDModalClient] (./modal, not embedded here).  It
    awaits the context ([None] while that is pending) and fails with a
    CapabilityNotEnabledError unless the feature is among
    [context.app.features]. *)
Definition check_enabled (c : MockFramePostChildClient) : option (Outcome unit) :=
  match getContext c with
  | None => None
  | Some (Throws reason) => Some (Threw (Thrown reason))
  | Some (Yields ctx) =>
      Some (bind (get ctx "app") (fun app =>
            bind (get app "features") (fun features =>
            bind (includes_str features MODALS) (fun enabled =>
            if enabled then Returned tt
            else Threw (CapabilityNotEnabledError "modals feature is not enabled")))))
  end.

(** Modelled from the spec: the payload check of [DDModalClient.open], by
    [validateKey]: the domain validates its payload, requiring a non-empty
    key field, and fails with a validation error. *)
Definition check_payload (definition : JsVal) : Outcome unit :=
  bind (validateKey definition) (fun ok =>
    if ok then Returned tt else Threw (Error missing_key_message)).

(** Modelled from the spec: [DDModalClient.open(definition)] (./modal,
    not embedded here).  Both checks run before the request; a failed
    check rejects the operation and nothing is sent.  The result is what
    the returned promise settles to, [None] while it is pending. *)
Definition open (order : CheckOrder) (definition : JsVal) (c : MockFramePostChildClient)
  : option (Outcome JsVal) * MockFramePostChildClient :=
  let send :=
    let (r, c') := request response OPEN_MODAL (JObj [("definition", definition)]) c in
    (Some (Returned r), c') in
  match order with
  | ValidateFirst =>
      match check_payload definition with
      | Threw e => (Some (Threw e), c)
      | Returned _ =>
          match check_enabled c with
          | None => (None, c)
          | Some (Threw e) => (Some (Threw e), c)
          | Some (Returned _) => send
          end
      end
  | EnablementFirst =>
      match check_enabled c with
      | None => (None, c)
      | Some (Threw e) => (Some (Threw e), c)
      | Some (Returned _) =>
          match check_payload definition with
          | Threw e => (Some (Threw e), c)
          | Returned _ => send
          end
      end
  end.

End Open.

End Modal.


(** ** Sample data for the worked examples

    The enum members of ../constants are written out with sample values. *)

Module Samples.

Import World.

Definition sample_features : list FeatureDefinition :=
  [ {| type := "dashboard_cog_menu"; events := ["dashboard_cog_menu_click"] |};
    {| type := "modals"; events := ["modal_close"; "modal_action"] |};
    {| type := "side_panels"; events := ["modal_close"] |} ].

Definition sample_enabledEvents : gset string := {["context_change"]}.

(** The context of the modal tests:
    [{...mockContext, app: {...mockContext.app, features: [MODALS]}}]. *)
Definition modalsContext : JsVal :=
  match TestUtils.mockContext "dashboard_cog_menu" with
  | JObj props =>
      match assoc "app" props with
      | Some (JObj app) =>
          JObj (TestUtils.with_prop "app"
                  (JObj (TestUtils.with_prop "features" (JArr [JStr "modals"]) app)) props)
      | _ => JUndefined
      end
  | _ => JUndefined
  end.

(** Managers over a world whose [ext] is the list of events sent to the
    host; a handler is named by a number. *)
Definition modalManager : CapabilityManager.t (list (string * JsVal)) nat :=
  {| CapabilityManager.type := "modals";
     CapabilityManager.eventsToSubscribe := ["modal_close"; "modal_action"];
     CapabilityManager.eventsToTrigger := ["open_modal"; "close_modal"];
     CapabilityManager.subscribeHandler := fun _ _ w => (fun w' => w', w);
     CapabilityManager.triggerEvent := fun eventType data w =>
       (Returned tt,
        {| heap := heap w; context := context w; handshake := handshake w;
           suspended := suspended w; logged := logged w;
           ext := (ext w ++ [(eventType, data)])%list |});
     CapabilityManager.handleEvent := fun _ _ w => (Returned tt, w) |}.

Definition contextManager : CapabilityManager.t (list (string * JsVal)) nat :=
  {| CapabilityManager.type := "app_context";
     CapabilityManager.eventsToSubscribe := ["context_change"];
     CapabilityManager.eventsToTrigger := [];
     CapabilityManager.subscribeHandler := fun _ _ w => (fun w' => w', w);
     CapabilityManager.triggerEvent := fun _ _ w => (Returned tt, w);
     CapabilityManager.handleEvent := fun _ data w =>
       (Returned tt, ContextChange.replace_context data w) |}.

Definition sample_managers : list (CapabilityManager.t (list (string * JsVal)) nat) :=
  [modalManager; contextManager].

(** A client whose handshake is done and whose context is [mockContext]. *)
Definition readyClient : World.t (list (string * JsVal)) :=
  DDClient.run
    [DDClient.HandshakeFulfilled (JStr "parent");
     DDClient.HostCallsInit (TestUtils.mockContext "dashboard_cog_menu");
     DDClient.Turn]
    (DDClient.constructor [] []).

End Samples.


(** ** utils/testUtils.ts: [uniqueInt] *)

Module UniqueInt.

(** The module variable [increment] is a double that starts at 0 and that
    only [uniqueInt] writes, so it holds an integer between 0 and 2^53.
    On those values [increment++] is exact below 2^53, and at 2^53 the sum
    2^53 + 1 rounds back to 2^53. *)
Definition increment0 : Z := 0.

(** [uniqueInt()]: the value returned and the new [increment]. *)
Definition uniqueInt (increment : Z) : Z * Z :=
  let increment' := if (increment <? 2 ^ 53)%Z then (increment + 1)%Z else increment in
  (increment', increment').

(** The values returned by [n] calls in a row. *)
Fixpoint calls (n : nat) (increment : Z) : list Z :=
  match n with
  | 0 => []
  | S n' => let (r, increment') := uniqueInt increment in r :: calls n' increment'
  end.

End UniqueInt.

(** ** utils/testUtils.ts: [MockLocalStorage] *)

Module MockLocalStorage.

(** [store] is a plain object used as a dictionary, so a read of a name
    it does not own falls through to [Object.prototype]. *)
Definition object_prototype_names : list string :=
  ["constructor"; "__defineGetter__"; "__defineSetter__"; "hasOwnProperty";
   "__lookupGetter__"; "__lookupSetter__"; "isPrototypeOf"; "propertyIsEnumerable";
   "toString"; "valueOf"; "__proto__"; "toLocaleString"].

(** What [getItem] returns: [null], a stored string, or the member of
    [Object.prototype] of that name. *)
Inductive Item : Type :=
| Null
| Value (s : string)
| Inherited (name : string).

(** The fields: the own properties of [store], and [length].  [key(index)]
    is left out: it depends on the order in which an object lists its
    keys. *)
Record t : Type := { store : gmap string string; length : nat }.

(** The constructor, and [clear()]. *)
Definition constructor : t := {| store := ∅; length := 0 |}.

Definition clear (s : t) : t := {| store := ∅; length := 0 |}.

(** [getItem(key)]: [this.store[key] || null]. *)
Definition getItem (key : string) (s : t) : Item :=
  match store s !! key with
  | Some v => if String.eqb v EmptyString then Null else Value v
  | None => if bool_decide (key ∈ object_prototype_names) then Inherited key else Null
  end.

(** [setItem(key, value)]: [this.store[key] = String(value)], which for
    the name [__proto__] calls the inherited setter, and that ignores a
    string; then [length] is counted anew. *)
Definition setItem (key value : string) (s : t) : t :=
  let store' := if String.eqb key "__proto__" then store s else <[key := value]> (store s) in
  {| store := store'; length := size store' |}.

(** [removeItem(key)]: [delete this.store[key]]; then [length] is counted
    anew. *)
Definition removeItem (key : string) (s : t) : t :=
  let store' := delete key (store s) in
  {| store := store'; length := size store' |}.

Inductive Op : Type :=
| SetItem (key value : string)
| RemoveItem (key : string)
| Clear.

Definition apply (o : Op) (s : t) : t :=
  match o with
  | SetItem key value => setItem key value s
  | RemoveItem key => removeItem key s
  | Clear => clear s
  end.

Definition run (ops : list Op) (s : t) : t := foldl (fun s o => apply o s) s ops.

End MockLocalStorage.

(** ** utils/testUtils.ts: the subscriptions of [MockFramePostChildClient] *)

Module MockSubscriptions.

Section Handlers.
(** Handlers are functions of the application: [call h data] is how the
    call [h(data)] completes. *)
Variable H : Type.
Variable call : H -> JsVal -> Outcome JsVal.

(** The module counter of [uniqueInt], and the two dictionaries of the
    client.  A table of [subscriptions] lists its entries by subscription
    id in the order [Object.values] visits them; ids are handed out in
    increasing order, so a new id goes last. *)
Record t : Type := {
  increment : Z;
  subscriptions : gmap string (list (Z * H));
  requestSubscriptions : gmap string H
}.

(** The constructor, at a given state of the counter. *)
Definition constructor (increment : Z) : t :=
  {| increment := increment; subscriptions := ∅; requestSubscriptions := ∅ |}.

(** [table[id] = handler] *)
Fixpoint put (id : Z) (h : H) (table : list (Z * H)) : list (Z * H) :=
  match table with
  | [] => [(id, h)]
  | (id', h') :: rest =>
      if (id =? id')%Z then (id', h) :: rest else (id', h') :: put id h rest
  end.

(** [const {[id]: _, ...others} = table] *)
Definition without (id : Z) (table : list (Z * H)) : list (Z * H) :=
  List.filter (fun entry => negb (id =? fst entry)%Z) table.

(** The closure that [on] returns.  Where the dictionary owns no table
    of the event type the read [this.subscriptions[eventType]] falls
    through to [Object.prototype].  For a name that is not one of its
    members the read gives [undefined], and destructuring that throws.
    For the name of a member it gives the member, which has no enumerable
    property of its own to copy, so the closure returns and an empty table
    is assigned to the name (for [__proto__] the assignment goes through
    the inherited setter, and the empty table is what a later read of that
    name gives: the entry of that name stands for it). *)
Definition unsubscribe (eventType : string) (subscriptionId : Z) (s : t) : Outcome unit * t :=
  match subscriptions s !! eventType with
  | None =>
      if bool_decide (eventType ∈ MockLocalStorage.object_prototype_names)
      then (Returned tt,
            {| increment := increment s;
               subscriptions := <[eventType := []]> (subscriptions s);
               requestSubscriptions := requestSubscriptions s |})
      else (Threw (TypeError "Cannot destructure undefined"), s)
  | Some table =>
      (Returned tt,
       {| increment := increment s;
          subscriptions := <[eventType := without subscriptionId table]> (subscriptions s);
          requestSubscriptions := requestSubscriptions s |})
  end.

(** [on(eventType, handler)].  For an event type that names a member of
    [Object.prototype] the code writes on that member, which is shared by
    every object, unless a table has been put in place of it: the model
    leaves these event types out, with [None]. *)
Definition on (eventType : string) (handler : H) (s : t)
  : option ((t -> Outcome unit * t) * t) :=
  if bool_decide (eventType ∈ MockLocalStorage.object_prototype_names) then None
  else
    let (subscriptionId, increment') := UniqueInt.uniqueInt (increment s) in
    let table := default [] (subscriptions s !! eventType) in
    Some (unsubscribe eventType subscriptionId,
          {| increment := increment';
             subscriptions := <[eventType := put subscriptionId handler table]> (subscriptions s);
             requestSubscriptions := requestSubscriptions s |}).

(** [Object.values(this.subscriptions[eventType] || {})] *)
Definition subscribed (eventType : string) (s : t) : list H :=
  map snd (default [] (subscriptions s !! eventType)).

(** [forEach(subscription => subscription(data))]: the handlers called, in
    order, and how the loop ends; a call that throws ends it. *)
Fixpoint forEach_call (hs : list H) (data : JsVal) : list H * Outcome unit :=
  match hs with
  | [] => ([], Returned tt)
  | h :: rest =>
      match call h data with
      | Returned _ => let (called, o) := forEach_call rest data in (h :: called, o)
      | Threw e => ([h], Threw e)
      end
  end.

(** [mockEvent(eventType, data)] *)
Definition mockEvent (eventType : string) (data : JsVal) (s : t) : list H * Outcome unit :=
  forEach_call (subscribed eventType s) data.

(** [onRequest(requestKey, requestHandler)] and the closure it returns.
    With the key [__proto__] the assignment replaces the prototype of the
    dictionary: the model stops there, with [None]. *)
Definition onRequest_unsubscribe (requestKey : string) (s : t) : t :=
  {| increment := increment s;
     subscriptions := subscriptions s;
     requestSubscriptions := delete requestKey (requestSubscriptions s) |}.

Definition onRequest (requestKey : string) (requestHandler : H) (s : t)
  : option ((t -> t) * t) :=
  if String.eqb requestKey "__proto__" then None
  else
    Some (onRequest_unsubscribe requestKey,
          {| increment := increment s;
             subscriptions := subscriptions s;
             requestSubscriptions := <[requestKey := requestHandler]> (requestSubscriptions s) |}).

(** What [mockRequest] does: returns [undefined] for want of a handler,
    completes as the handler does, or calls the member of
    [Object.prototype] that the key names. *)
Inductive Requested : Type :=
| NoHandler
| Handled (o : Outcome JsVal)
| CallsInherited (name : string).

(** [mockRequest(requestKey, data)] *)
Definition mockRequest (requestKey : string) (data : JsVal) (s : t) : Requested :=
  match requestSubscriptions s !! requestKey with
  | Some handler => Handled (call handler data)
  | None =>
      if String.eqb requestKey "__proto__"
      then Handled (Threw (TypeError "handler is not a function"))
      else if bool_decide (requestKey ∈ MockLocalStorage.object_prototype_names)
      then CallsInherited requestKey
      else NoHandler
  end.

(** The ids of a state are among those the counter has handed out, and
    every table lists its ids in increasing order. *)
Definition ids_handed_out (s : t) : Prop :=
  (0 <= increment s)%Z
  ∧ ∀ eventType table,
      subscriptions s !! eventType = Some table →
      StronglySorted Z.lt (map fst table)
      ∧ Forall (fun id => (id <= increment s)%Z) (map fst table).

End Handlers.

Arguments increment {H} _.
Arguments subscriptions {H} _.
Arguments requestSubscriptions {H} _.
Arguments constructor {H} increment.
Arguments put {H} id h table.
Arguments without {H} id table.
Arguments unsubscribe {H} eventType subscriptionId s.
Arguments on {H} eventType handler s.
Arguments subscribed {H} eventType s.
Arguments forEach_call {H} call hs data.
Arguments mockEvent {H} call eventType data s.
Arguments onRequest_unsubscribe {H} requestKey s.
Arguments onRequest {H} requestKey requestHandler s.
Arguments mockRequest {H} call requestKey data s.
Arguments ids_handed_out {H} s.

End MockSubscriptions.

(** ** client.ts: [loadFrameWithURL] *)

Module LoadFrame.

Import World.

(** A client together with the calls of [loadFrameWithURL] parked at
    [await this.handshake] and the messages emitted to the parent. *)
Record t (Ext : Type) : Type := {
  client : World.t Ext;
  parked : list string;
  emitted : list (string * JsVal)
}.
Arguments client {Ext} _.
Arguments parked {Ext} _.
Arguments emitted {Ext} _.

Inductive Event : Type :=
| ClientEvent (ev : DDClient.Event)
| AppCallsLoadFrameWithURL (url : string)
| TurnLoadFrame.

(** [parent.emit('loadFrameWithURL', url)] *)
Definition emit (url : string) : string * JsVal := ("loadFrameWithURL", JStr url).

(** [loadFrameWithURL] up to its await, and, on a turn of the event loop,
    the rest of the call parked longest: nothing while the handshake is
    pending; the emit once it is fulfilled; if it was rejected the await
    throws and the call ends. *)
Definition step {Ext} (ev : Event) (s : t Ext) : t Ext :=
  match ev with
  | ClientEvent ev' =>
      {| client := DDClient.step ev' (client s); parked := parked s; emitted := emitted s |}
  | AppCallsLoadFrameWithURL url =>
      {| client := client s; parked := (parked s ++ [url])%list; emitted := emitted s |}
  | TurnLoadFrame =>
      match parked s with
      | [] => s
      | url :: rest =>
          match await (heap (client s)) (handshake (client s)) with
          | None => s
          | Some (Throws _) => {| client := client s; parked := rest; emitted := emitted s |}
          | Some (Yields _) =>
              {| client := client s; parked := rest;
                 emitted := (emitted s ++ [emit url])%list |}
          end
      end
  end.

Definition run {Ext} (evs : list Event) (s : t Ext) : t Ext :=
  foldl (fun s ev => step ev s) s evs.

Definition constructor {Ext} (h : Heap) (ext0 : Ext) : t Ext :=
  {| client := DDClient.constructor h ext0; parked := []; emitted := [] |}.

(** The urls that a run passes to [loadFrameWithURL], in call order. *)
Fixpoint urls (evs : list Event) : list string :=
  match evs with
  | [] => []
  | AppCallsLoadFrameWithURL url :: rest => url :: urls rest
  | _ :: rest => urls rest
  end.

(** How far the calls have got, by the state of the handshake. *)
Definition progress {Ext} (calls : list string) (s : t Ext) : Prop :=
  match await (heap (client s)) (handshake (client s)) with
  | None => emitted s = [] ∧ parked s = calls
  | Some (Throws _) => emitted s = [] ∧ ∃ ended, calls = (ended ++ parked s)%list
  | Some (Yields _) =>
      ∃ done, calls = (done ++ parked s)%list ∧ emitted s = map emit done
  end.

End LoadFrame.


(** ** Further observers *)

Module Observers.

(** Every entry of a reverse map holds a feature type. *)
Definition entries_inhabited (m : gmap string (gset string)) : Prop :=
  ∀ e s, m !! e = Some s → ∃ f, f ∈ s.

End Observers.

Import Observers.


(* ===================================================================== *)
(** * Part II: the theorems *)
(* ===================================================================== *)

(** ** The reverse map of the registry *)

Section RegistryFacts.
Implicit Types (m : gmap string (gset string)) (e ft f : string).
Implicit Types (fds : list FeatureDefinition).

Lemma add_feature_lookup ft m e e' :
  add_feature ft m e !! e' =
    if decide (e = e') then Some (default ∅ (m !! e) ∪ {[ft]}) else m !! e'.
Proof.
  unfold add_feature.
  destruct (m !! e) as [s|] eqn:Hme.
  - rewrite bool_decide_eq_true_2 by eauto. rewrite Hme.
    rewrite lookup_insert. destruct (decide (e = e')); reflexivity.
  - rewrite bool_decide_eq_false_2 by (intros [? ?]; congruence).
    rewrite lookup_insert_eq. rewrite insert_insert_eq.
    rewrite lookup_insert. destruct (decide (e = e')); [reflexivity|exact eq_refl].
Qed.

Lemma unlocks_add_feature ft m e e' f :
  unlocks (add_feature ft m e) e' f ↔ unlocks m e' f ∨ (e = e' ∧ f = ft).
Proof.
  unfold unlocks. rewrite add_feature_lookup.
  destruct (decide (e = e')) as [->|Hne].
  - split.
    + intros (s & Hs & Hf). injection Hs as <-.
      apply elem_of_union in Hf as [Hf|Hf].
      * left. destruct (m !! e') as [s'|]; [eauto|]. simpl in Hf. set_solver.
      * right. split; [reflexivity|]. set_solver.
    + intros [(s & Hs & Hf)|[_ ->]].
      * eexists; split; [reflexivity|]. rewrite Hs. simpl. set_solver.
      * eexists; split; [reflexivity|]. set_solver.
  - split; [intros H; left; exact H|].
    intros [H|[Heq _]]; [exact H|contradiction].
Qed.

Lemma unlocks_events ft (evs : list string) m e' f :
  unlocks (foldl (add_feature ft) m evs) e' f ↔ unlocks m e' f ∨ (e' ∈ evs ∧ f = ft).
Proof.
  revert m. induction evs as [|e evs IH]; intros m; simpl.
  - split; [auto|]. intros [H|[H _]]; [exact H|]. inversion H.
  - rewrite IH, unlocks_add_feature, elem_of_cons. split.
    + intros [[H|[-> ->]]|[H ->]]; auto.
    + intros [H|[[->|H] ->]]; auto.
Qed.

Lemma unlocks_features fds m e' f :
  unlocks (foldl (fun m feature => foldl (add_feature (type feature)) m (events feature)) m fds) e' f
  ↔ unlocks m e' f ∨ ∃ fd, fd ∈ fds ∧ e' ∈ events fd ∧ type fd = f.
Proof.
  revert m. induction fds as [|fd fds IH]; intros m; simpl.
  - split; [auto|]. intros [H|(fd & H & _)]; [exact H|]. inversion H.
  - rewrite IH, unlocks_events. split.
    + intros [[H|[He ->]]|(fd' & Hin & He & Ht)].
      * left; exact H.
      * right. exists fd. rewrite elem_of_cons. auto.
      * right. exists fd'. rewrite elem_of_cons. auto.
    + intros [H|(fd' & Hin & He & Ht)]; [auto|].
      apply elem_of_cons in Hin as [->|Hin]; [left; right; auto|].
      right. exists fd'. auto.
Qed.

Lemma unlocks_reverseMap fds e f :
  unlocks (reverseMap fds) e f ↔ ∃ fd, fd ∈ fds ∧ e ∈ events fd ∧ type fd = f.
Proof.
  unfold reverseMap. rewrite unlocks_features.
  split; [|auto]. intros [(s & Hs & _)|H]; [|exact H].
  rewrite lookup_empty in Hs. discriminate.
Qed.

(** An event without an entry is in no definition. *)
Lemma reverseMap_None fds e :
  reverseMap fds !! e = None → ∀ fd, fd ∈ fds → e ∉ events fd.
Proof.
  intros Hnone fd Hin He.
  assert (unlocks (reverseMap fds) e (type fd)) as (s & Hs & _).
  { apply unlocks_reverseMap. exists fd. auto. }
  congruence.
Qed.

End RegistryFacts.

(** ** [memoize] and the event gate *)

Section GateFacts.
Variable enabledEvents : gset string.
Variable features : list FeatureDefinition.

Lemma memoize_fresh {Env T} (getter : Env -> T) env :
  memoize getter env memo_new
  = (Some (getter env), {| executed := true; value := Some (getter env) |}).
Proof. reflexivity. Qed.

Lemma memoize_executed {Env T} (getter : Env -> T) env (v : option T) :
  memoize getter env {| executed := true; value := v |}
  = (v, {| executed := true; value := v |}).
Proof. reflexivity. Qed.

Lemma call_each_executed {Env T} (getter : Env -> T) (envs : list Env) (v : option T) :
  call_each (memoize getter) envs {| executed := true; value := v |}
  = replicate (length envs) v.
Proof.
  induction envs as [|env envs IH]; simpl; [reflexivity|].
  f_equal. exact IH.
Qed.

Lemma isEventEnabled_cell_ok e fs c :
  cell_ok features c → cell_ok features (snd (isEventEnabled enabledEvents features e fs c)).
Proof.
  intros Hc. unfold isEventEnabled.
  destruct (bool_decide (e ∈ enabledEvents)); [exact Hc|].
  unfold getFeatureTypesByEvent.
  destruct Hc as [->| ->]; [rewrite memoize_fresh|rewrite memoize_executed];
    (destruct (reverseMap features !! e); right; reflexivity).
Qed.

Lemma cell_after_ok prior : cell_ok features (cell_after enabledEvents features prior).
Proof.
  unfold cell_after.
  assert (∀ c, cell_ok features c →
    cell_ok features (foldl (fun c call => snd (isEventEnabled enabledEvents features (fst call) (snd call) c))
                   c prior)) as H.
  { induction prior as [|[e fs] prior IH]; intros c Hc; simpl; [exact Hc|].
    apply IH. apply isEventEnabled_cell_ok. exact Hc. }
  apply H. left; reflexivity.
Qed.

(** With a cell in either state the gate reads the registry's map. *)
Lemma isEventEnabled_unfold e fs c :
  cell_ok features c →
  fst (isEventEnabled enabledEvents features e fs c) =
    Returned
      (if bool_decide (e ∈ enabledEvents) then true
       else match reverseMap features !! e with
            | None => false
            | Some enabling => existsb (fun f => bool_decide (f ∈ enabling)) fs
            end).
Proof.
  intros Hc. unfold isEventEnabled.
  destruct (bool_decide (e ∈ enabledEvents)); [reflexivity|].
  unfold getFeatureTypesByEvent.
  destruct Hc as [->| ->]; [rewrite memoize_fresh|rewrite memoize_executed];
    (destruct (reverseMap features !! e); reflexivity).
Qed.

Lemma gate_body_iff e fs :
  (if bool_decide (e ∈ enabledEvents) then true
   else match reverseMap features !! e with
        | None => false
        | Some enabling => existsb (fun f => bool_decide (f ∈ enabling)) fs
        end) = true
  ↔ e ∈ enabledEvents ∨ ∃ fd, fd ∈ features ∧ e ∈ events fd ∧ type fd ∈ fs.
Proof.
  destruct (bool_decide (e ∈ enabledEvents)) eqn:He.
  - apply bool_decide_eq_true in He. split; auto.
  - apply bool_decide_eq_false in He.
    destruct (reverseMap features !! e) as [enabling|] eqn:Hm.
    + rewrite existsb_exists. split.
      * intros (f & Hin & Hf). apply bool_decide_eq_true in Hf. right.
        destruct (proj1 (unlocks_reverseMap features e f)) as (fd & H1 & H2 & H3).
        { exists enabling. auto. }
        exists fd. subst f. apply list_elem_of_In in Hin. auto.
      * intros [H|(fd & H1 & H2 & H3)]; [contradiction|].
        exists (type fd). split; [apply list_elem_of_In; exact H3|].
        apply bool_decide_eq_true.
        destruct (proj2 (unlocks_reverseMap features e (type fd))) as (s & Hs & Hf).
        { exists fd. auto. }
        congruence.
    + split; [discriminate|].
      intros [H|(fd & H1 & H2 & _)]; [contradiction|].
      exfalso. exact (reverseMap_None features e Hm fd H1 H2).
Qed.

(** C1. For every event [e] and feature list [fs], whatever calls came
    before: [isEventEnabled e fs] returns (it does not throw), and it
    returns true iff [e] is always-enabled or [e] is among the events of a
    feature definition whose type is in [fs].  In particular an event that
    is in no definition and is not always-enabled is refused for every
    [fs], the registry's own feature set included. *)
Theorem isEventEnabled_spec (prior : list (string * list string)) (e : string) (fs : list string) :
  ∃ b, fst (isEventEnabled enabledEvents features e fs
              (cell_after enabledEvents features prior)) = Returned b
     ∧ (b = true ↔
          e ∈ enabledEvents ∨ (∃ fd, fd ∈ features ∧ e ∈ events fd ∧ type fd ∈ fs))
     ∧ (((e ∉ enabledEvents) ∧ (∀ fd, fd ∈ features → e ∉ events fd)) →
          b = false
          ∧ fst (isEventEnabled enabledEvents features e (map type features)
                   (cell_after enabledEvents features prior)) = Returned false).
Proof.
  pose proof (cell_after_ok prior) as Hc.
  eexists. split; [apply isEventEnabled_unfold, Hc|].
  split; [apply gate_body_iff|].
  intros [Hne Hnone]. split.
  - apply not_true_is_false. rewrite gate_body_iff.
    intros [H|(fd & H1 & H2 & _)]; [contradiction|exact (Hnone fd H1 H2)].
  - rewrite isEventEnabled_unfold by exact Hc. f_equal.
    apply not_true_is_false. rewrite gate_body_iff.
    intros [H|(fd & H1 & H2 & _)]; [contradiction|exact (Hnone fd H1 H2)].
Qed.

(** C8. The reverse map is computed by the first call and never again:
    whatever the registry is at later calls, every call of
    [getFeatureTypesByEvent] returns the map of the registry as it was at
    the first call; under a registry that does not change the memoized
    function returns at each call what the getter itself returns; and
    the cell the gate reads after any calls of [isEventEnabled] is either
    untouched or holds that one map. *)
Theorem getFeatureTypesByEvent_computed_once
    (first : list FeatureDefinition) (later : list (list FeatureDefinition))
    (prior : list (string * list string)) :
  call_each getFeatureTypesByEvent (first :: later) memo_new
    = replicate (S (length later)) (Some (reverseMap first))
  ∧ Forall2 (fun registry r => r = Some (reverseMap registry))
      (replicate (S (length later)) first)
      (call_each getFeatureTypesByEvent (replicate (S (length later)) first) memo_new)
  ∧ (cell_after enabledEvents features prior = memo_new
     ∨ cell_after enabledEvents features prior
       = {| executed := true; value := Some (reverseMap features) |}).
Proof.
  unfold getFeatureTypesByEvent. split; [|split].
  - simpl. f_equal. apply call_each_executed.
  - simpl. constructor; [reflexivity|].
    rewrite call_each_executed, length_replicate.
    apply Forall2_replicate. reflexivity.
  - exact (cell_after_ok prior).
Qed.

End GateFacts.

(** ** [validateKey] *)

Section ValidateKeyFacts.

Lemma string_length_pos (s : string) :
  (0 <? String.length s)%nat = negb (String.eqb s EmptyString).
Proof. destruct s; reflexivity. Qed.

Lemma validateKey_object (props : list (string * JsVal)) :
  validateKey (JObj props) =
    if key_absent_or_falsy (JObj props)
    then Threw (Error missing_key_message) else Returned true.
Proof.
  unfold validateKey, isDefinitionWithKey, key_absent_or_falsy, own_key, get, bind.
  destruct (assoc "key" props) as [k|]; simpl; [|reflexivity].
  destruct (truthy k); reflexivity.
Qed.

(** C10. [validateKey] by the shape of its argument.  On a string it
    returns, and returns true iff the string is not empty.  On anything
    else it never returns false: it throws iff the argument has no [key]
    property or a falsy one (the empty string included), and returns true
    otherwise. *)
Theorem validateKey_by_shape (v : JsVal) :
  match v with
  | JStr s => validateKey v = Returned (negb (String.eqb s EmptyString))
  | _ =>
      validateKey v ≠ Returned false
      ∧ ((∃ err, validateKey v = Threw err) ↔ key_absent_or_falsy v = true)
      ∧ (validateKey v = Returned true ↔ key_absent_or_falsy v = false)
  end.
Proof.
  destruct v as [| |b|n| |s|items|props].
  all: try (cbn; split; [discriminate|split; split; (eauto || discriminate)]).
  { cbn. f_equal. apply string_length_pos. }
  rewrite validateKey_object.
  destruct (key_absent_or_falsy (JObj props)).
  - split; [discriminate|]. split; split; (eauto || discriminate).
  - split; [discriminate|].
    split; split; try reflexivity; try discriminate.
    intros [err H]. discriminate.
Qed.

End ValidateKeyFacts.

(** ** Promises and [defer] *)

Section HeapFacts.
Implicit Types (h : Heap) (p q : nat) (s : PromiseState) (d : Deferred).

Lemma await_at_unfold (n : nat) h p :
  await_at n h p =
    match h !! p with
    | Some (Fulfilled v) => Some (Yields v)
    | Some (Rejected r) => Some (Throws r)
    | Some (Follows q) => match n with 0 => None | S n' => await_at n' h q end
    | _ => None
    end.
Proof. destruct n; reflexivity. Qed.

Lemma settle_pending h p s :
  h !! p = Some Pending → settle p s h !! p = Some s.
Proof.
  intros Hp. unfold settle. rewrite Hp.
  apply list_lookup_insert_eq. eapply lookup_lt_Some, Hp.
Qed.

Lemma settle_other h p q s : p ≠ q → settle p s h !! q = h !! q.
Proof.
  intros Hne. unfold settle.
  destruct (h !! p) as [[| | |]|]; try reflexivity.
  apply list_lookup_insert_ne, Hne.
Qed.

Lemma settle_length h p s : length (settle p s h) = length h.
Proof.
  unfold settle. destruct (h !! p) as [[| | |]|]; try reflexivity. apply length_insert.
Qed.

Lemma extends_refl h : extends h h.
Proof. split; [lia|auto]. Qed.

Lemma extends_trans h1 h2 h3 : extends h1 h2 → extends h2 h3 → extends h1 h3.
Proof.
  intros [Hl1 H1] [Hl2 H2]. split; [lia|].
  intros p s Hp Hs. apply H2; [apply H1; assumption|exact Hs].
Qed.

(** [settle] only touches a pending cell. *)
Lemma extends_settle h p s : extends h (settle p s h).
Proof.
  split; [rewrite settle_length; lia|].
  intros q s' Hq Hs'. destruct (decide (p = q)) as [->|Hne].
  - unfold settle. rewrite Hq. destruct s'; try exact Hq. contradiction.
  - rewrite settle_other by exact Hne. exact Hq.
Qed.

Lemma extends_app h (l : Heap) : extends h (h ++ l)%list.
Proof.
  split; [rewrite length_app; lia|].
  intros p s Hp _. apply lookup_app_l_Some, Hp.
Qed.

(** What a promise has yielded it yields in every later heap. *)
Lemma await_at_mono (n m : nat) h h' p r :
  extends h h' → (n <= m)%nat → await_at n h p = Some r → await_at m h' p = Some r.
Proof.
  intros [Hlen Hext]. revert m p.
  induction n as [|n IH]; intros m p Hnm; rewrite !await_at_unfold;
    destruct (h !! p) as [[|v|r'|q]|] eqn:Hp; try discriminate;
    try (rewrite (Hext _ _ Hp) by discriminate; intros H; exact H).
  rewrite (Hext _ _ Hp) by discriminate.
  destruct m as [|m]; [lia|]. apply IH. lia.
Qed.

Lemma await_extends h h' p r :
  extends h h' → await h p = Some r → await h' p = Some r.
Proof.
  intros Hext. unfold await. apply await_at_mono; [exact Hext|apply Hext].
Qed.

Lemma extends_heap_op (o : HeapOp) h : extends h (heap_op o h).
Proof.
  destruct o; simpl; [apply extends_settle|apply extends_settle|apply extends_app].
Qed.

Lemma await_heap_ops (ops : list HeapOp) h p r :
  await h p = Some r → await (foldl (fun h o => heap_op o h) h ops) p = Some r.
Proof.
  revert h. induction ops as [|o ops IH]; intros h Hp; simpl; [exact Hp|].
  apply IH. eapply await_extends; [apply extends_heap_op|exact Hp].
Qed.

Lemma await_fulfilled h p v : h !! p = Some (Fulfilled v) → await h p = Some (Yields v).
Proof. intros Hp. unfold await. rewrite await_at_unfold, Hp. reflexivity. Qed.

Lemma await_pending h p : h !! p = Some Pending → await h p = None.
Proof. intros Hp. unfold await. rewrite await_at_unfold, Hp. reflexivity. Qed.

Lemma defer_pending h : snd (defer h) !! promise (fst (defer h)) = Some Pending.
Proof.
  unfold defer, new_promise. cbn [fst snd promise].
  rewrite lookup_app_r by lia. rewrite Nat.sub_diag. reflexivity.
Qed.

Lemma resolve_fulfilled h d v :
  h !! promise d = Some Pending → resolve d v h !! promise d = Some (Fulfilled v).
Proof. apply settle_pending. Qed.

(** The promise of an async call that returns [q] yields what [q] has
    yielded. *)
Lemma await_async_return h q r :
  await h q = Some r →
  await (snd (async_return q h)) (fst (async_return q h)) = Some r.
Proof.
  unfold await, async_return. cbn [fst snd]. intros Hq.
  rewrite length_app. simpl. rewrite Nat.add_1_r.
  rewrite await_at_unfold.
  rewrite lookup_app_r by lia. rewrite Nat.sub_diag. simpl.
  eapply await_at_mono; [apply extends_app|reflexivity|exact Hq].
Qed.

(** A promise that follows [q] yields the value [q] is fulfilled with. *)
Lemma await_follower h p q v :
  h !! p = Some (Follows q) → h !! q = Some (Fulfilled v) → await h p = Some (Yields v).
Proof.
  intros Hp Hq. unfold await.
  destruct (length h) as [|n] eqn:Hlen.
  - apply lookup_lt_Some in Hp. lia.
  - rewrite await_at_unfold, Hp, await_at_unfold, Hq. reflexivity.
Qed.

End HeapFacts.

(** ** The context resolver of the client *)

Section ResolverFacts.
Import World DDClient.
Variable Ext : Type.
Implicit Types (w : World.t Ext) (ev : Event) (evs : list Event).

Ltac step_cases ev w :=
  destruct ev as [c|v|r| |]; try reflexivity; simpl;
  destruct (suspended w) as [|[c] rest]; [reflexivity|];
  unfold init_resume; simpl;
  destruct (await (heap w) (handshake w)) as [[v|r]|]; reflexivity.

Lemma step_context ev w : World.context (step ev w) = World.context w.
Proof. step_cases ev w. Qed.

Lemma step_handshake ev w : handshake (step ev w) = handshake w.
Proof. step_cases ev w. Qed.

Lemma run_cons ev evs w : run (ev :: evs) w = run evs (step ev w).
Proof. reflexivity. Qed.

Lemma run_context evs w : World.context (run evs w) = World.context w.
Proof.
  revert w. induction evs as [|ev evs IH]; intros w; [reflexivity|].
  rewrite run_cons, IH. apply step_context.
Qed.

(** No step unsettles a promise or frees one. *)
Lemma step_extends ev w : extends (heap w) (heap (step ev w)).
Proof.
  destruct ev as [c|v|r| |]; simpl.
  - apply extends_refl.
  - apply extends_settle.
  - apply extends_settle.
  - apply extends_app.
  - destruct (suspended w) as [|[c] rest]; [apply extends_refl|].
    unfold init_resume. simpl.
    destruct (await (heap w) (handshake w)) as [[v|r]|]; simpl;
      [apply extends_settle|apply extends_refl|apply extends_refl].
Qed.

Lemma run_extends evs w : extends (heap w) (heap (run evs w)).
Proof.
  revert w. induction evs as [|ev evs IH]; intros w; [apply extends_refl|].
  rewrite run_cons. eapply extends_trans; [apply step_extends|apply IH].
Qed.

Lemma run_await evs w p r :
  await (heap w) p = Some r → await (heap (run evs w)) p = Some r.
Proof. apply await_extends, run_extends. Qed.

Lemma getContext_follows w :
  heap (snd (getContext w)) !! fst (getContext w) = Some (Follows (promise (World.context w))).
Proof.
  unfold getContext, async_return. simpl.
  rewrite lookup_app_r by lia. rewrite Nat.sub_diag. reflexivity.
Qed.

(** A caller of [getContext] gets what the held promise has yielded. *)
Lemma getContext_held w r :
  held w = Some r → await (heap (snd (getContext w))) (fst (getContext w)) = Some r.
Proof. unfold held. intros Hr. exact (await_async_return _ _ _ Hr). Qed.

Lemma constructor_allocated (h : Heap) (ext0 : Ext) : allocated (constructor h ext0).
Proof.
  unfold allocated, constructor, defer, new_promise. simpl.
  rewrite !length_app. simpl.
  split; [lia|]. split; [lia|].
  left. rewrite lookup_app_l by (rewrite length_app; simpl; lia).
  rewrite lookup_app_r by lia. rewrite Nat.sub_diag. reflexivity.
Qed.

Lemma step_allocated ev w : allocated w → allocated (step ev w).
Proof.
  intros (Hne & Hlt & Hcell). unfold allocated.
  rewrite step_context, step_handshake.
  split; [exact Hne|]. split.
  { pose proof (step_extends ev w) as [Hlen _]. lia. }
  destruct ev as [c|v|r| |]; simpl.
  - exact Hcell.
  - rewrite settle_other by exact Hne. exact Hcell.
  - rewrite settle_other by exact Hne. exact Hcell.
  - destruct Hcell as [H|[v H]]; [left|right; exists v];
      apply lookup_app_l_Some, H.
  - destruct (suspended w) as [|[c] rest]; [exact Hcell|].
    unfold init_resume. simpl.
    destruct (await (heap w) (handshake w)) as [[v|r]|]; simpl; try exact Hcell.
    destruct Hcell as [H|[v' H]].
    + right. exists c. apply resolve_fulfilled, H.
    + right. exists v'. apply (extends_settle (heap w)); [exact H|discriminate].
Qed.

Lemma run_allocated evs w : allocated w → allocated (run evs w).
Proof.
  revert w. induction evs as [|ev evs IH]; intros w Hw; [exact Hw|].
  rewrite run_cons. apply IH, step_allocated, Hw.
Qed.

Lemma held_cases w :
  allocated w →
  (held w = None ∧ heap w !! promise (World.context w) = Some Pending)
  ∨ ∃ v, held w = Some (Yields v) ∧ heap w !! promise (World.context w) = Some (Fulfilled v).
Proof.
  intros (_ & _ & [H|[v H]]).
  - left. split; [apply await_pending, H|exact H].
  - right. exists v. split; [apply await_fulfilled, H|exact H].
Qed.

(** What a step can do to a pending context: leave it pending, or, on a
    turn that resumes a parked [init] whose handshake is already
    fulfilled, resolve it with that call's context. *)
Lemma step_resolves ev w :
  allocated w →
  held w = None →
  held (step ev w) = None
  ∨ (ev = Turn
     ∧ ∃ parent c rest,
         suspended w = InitAwaitsHandshake c :: rest
         ∧ await (heap w) (handshake w) = Some (Yields parent)
         ∧ held (step ev w) = Some (Yields c)).
Proof.
  intros Hw Hheld.
  destruct (held_cases w Hw) as [[_ Hcell]|(v & Hv & _)]; [|congruence].
  destruct Hw as (Hne & _ & _).
  unfold held. rewrite step_context.
  destruct ev as [c|v|r| |]; simpl.
  - left. exact Hheld.
  - left. apply await_pending. rewrite settle_other by exact Hne. exact Hcell.
  - left. apply await_pending. rewrite settle_other by exact Hne. exact Hcell.
  - left. apply await_pending, lookup_app_l_Some, Hcell.
  - destruct (suspended w) as [|[c] rest] eqn:Hs; [left; exact Hheld|].
    unfold init_resume. simpl.
    destruct (await (heap w) (handshake w)) as [[parent|r]|] eqn:Hh; simpl;
      try (left; exact Hheld).
    right. split; [reflexivity|]. exists parent, c, rest.
    split; [reflexivity|]. split; [reflexivity|].
    apply await_fulfilled, resolve_fulfilled, Hcell.
Qed.

(** C6. In every execution of a freshly constructed client, however early
    the host calls [init]: a step that takes the context promise from
    pending to settled is a turn of the event loop resuming a parked
    [init], the handshake promise was already fulfilled before that step,
    and the context is resolved with that call's argument. *)
Theorem init_resolves_after_handshake (h0 : Heap) (ext0 : Ext) evs ev (r : Awaited) :
  let w := run evs (constructor h0 ext0) in
  held w = None →
  held (step ev w) = Some r →
  ev = Turn
  ∧ ∃ parent c rest,
      suspended w = InitAwaitsHandshake c :: rest
      ∧ await (heap w) (handshake w) = Some (Yields parent)
      ∧ r = Yields c.
Proof.
  intros w Hpending Hsettled.
  assert (allocated w) as Hw by apply run_allocated, constructor_allocated.
  destruct (step_resolves ev w Hw Hpending) as [Hnone|(-> & parent & c & rest & Hs & Hh & Hc)].
  - congruence.
  - split; [reflexivity|]. exists parent, c, rest.
    split; [exact Hs|]. split; [exact Hh|]. congruence.
Qed.

(** C3. A caller of [getContext] before the context is resolved and a
    caller after it each hold a promise of their own, and both promises
    yield the same value [c], the one the context was resolved with: the
    early caller's promise yields [c] once the context is resolved, and
    both keep yielding [c] whatever the host, the application and the
    event loop do afterwards. *)
Theorem getContext_before_and_after (h0 : Heap) (ext0 : Ext)
    (before between after : list Event) (c : JsVal) :
  let w1 := run before (constructor h0 ext0) in
  let early := fst (getContext w1) in
  let w2 := run between (snd (getContext w1)) in
  let late := fst (getContext w2) in
  let w3 := run after (snd (getContext w2)) in
  await (heap (snd (getContext w1))) early = None →
  held w2 = Some (Yields c) →
  await (heap w2) early = Some (Yields c)
  ∧ await (heap (snd (getContext w2))) late = Some (Yields c)
  ∧ await (heap w3) early = Some (Yields c)
  ∧ await (heap w3) late = Some (Yields c).
Proof.
  intros w1 early w2 late w3 _ Hc.
  assert (allocated w2) as Hw2.
  { apply run_allocated. apply (step_allocated AppCallsGetContext).
    apply run_allocated, constructor_allocated. }
  destruct (held_cases w2 Hw2) as [[Hnone _]|(v & Hv & Hcell)]; [congruence|].
  assert (v = c) as -> by congruence.
  assert (await (heap w2) early = Some (Yields c)) as Hearly.
  { apply (await_follower _ _ (promise (World.context w2))); [|exact Hcell].
    unfold w2 at 2. rewrite run_context.
    change (World.context (snd (getContext w1))) with (World.context w1).
    apply (run_extends between (snd (getContext w1))); [|discriminate].
    apply getContext_follows. }
  assert (await (heap (snd (getContext w2))) late = Some (Yields c)) as Hlate
    by apply getContext_held, Hc.
  split; [exact Hearly|]. split; [exact Hlate|].
  split; apply run_await; [|exact Hlate].
  apply (await_extends (heap w2)); [apply (step_extends AppCallsGetContext)|exact Hearly].
Qed.

End ResolverFacts.

(** C9. A deferred settles once.  After [resolve v] on a fresh deferred
    its promise yields [v], and no later [resolve] or [reject], on it or
    on any other deferred, changes that.  For the client: once the held
    context promise yields [c], every later caller of [getContext] gets
    [c], whatever further [init] calls the host makes. *)
Theorem defer_first_resolution_wins (h : Heap) (v : JsVal) (ops : list HeapOp) :
  let d := fst (defer h) in
  let h1 := resolve d v (snd (defer h)) in
  await (snd (defer h)) (promise d) = None
  ∧ await h1 (promise d) = Some (Yields v)
  ∧ await (foldl (fun h o => heap_op o h) h1 ops) (promise d) = Some (Yields v)
  ∧ ∀ (Ext : Type) (w : World.t Ext) (c : JsVal) (evs : list DDClient.Event),
      DDClient.held w = Some (Yields c) →
      DDClient.held (DDClient.run evs w) = Some (Yields c)
      ∧ await (World.heap (snd (DDClient.getContext (DDClient.run evs w))))
              (fst (DDClient.getContext (DDClient.run evs w)))
        = Some (Yields c).
Proof.
  intros d h1.
  assert (await h1 (promise d) = Some (Yields v)) as Hv
    by apply await_fulfilled, resolve_fulfilled, defer_pending.
  split; [apply await_pending, defer_pending|]. split; [exact Hv|].
  split; [apply await_heap_ops, Hv|].
  intros Ext w c evs Hc.
  assert (DDClient.held (DDClient.run evs w) = Some (Yields c)) as Hlater.
  { unfold DDClient.held. rewrite run_context. apply run_await, Hc. }
  split; [exact Hlater|]. apply getContext_held, Hlater.
Qed.

(** ** Routing in the client facade *)

Section RoutingFacts.
Import World DDClient.
Variables Ext Handler : Type.
Variable capabilityManagers : list (CapabilityManager.t Ext Handler).
Implicit Types (m : CapabilityManager.t Ext Handler) (w : World.t Ext).

(** [Array.prototype.find]: nothing passes the test, or the result is the
    first element that does. *)
Lemma find_cases {A} (f : A → bool) (l : list A) :
  (find f l = None ∧ ∀ x, x ∈ l → f x = false)
  ∨ ∃ pre x post,
      l = (pre ++ x :: post)%list ∧ (∀ y, y ∈ pre → f y = false) ∧ f x = true
      ∧ find f l = Some x.
Proof.
  induction l as [|a l IH]; simpl.
  - left. split; [reflexivity|]. intros x Hx. inversion Hx.
  - destruct (f a) eqn:Hfa.
    + right. exists [], a, l. split; [reflexivity|].
      split; [intros y Hy; inversion Hy|]. split; [exact Hfa|reflexivity].
    + destruct IH as [[Hnone Hall]|(pre & x & post & -> & Hpre & Hx & Hfind)].
      * left. split; [exact Hnone|]. intros x Hx.
        apply elem_of_cons in Hx as [->|Hx]; [exact Hfa|exact (Hall x Hx)].
      * right. exists (a :: pre), x, post. split; [reflexivity|].
        split; [|split; [exact Hx|exact Hfind]].
        intros y Hy. apply elem_of_cons in Hy as [->|Hy]; [exact Hfa|exact (Hpre y Hy)].
Qed.

Lemma includes_false (x : string) (l : list string) : bool_decide (x ∈ l) = false ↔ x ∉ l.
Proof. apply bool_decide_eq_false. Qed.

(** C4. [on] never throws.  Either no manager lists the event type among
    its [eventsToSubscribe], and then [on] logs one error and returns an
    unsubscribe function that does nothing; or it hands the call to the
    first manager that lists it and returns what that manager's
    [subscribeHandler] returns. *)
Theorem on_routes (eventType : string) (handler : Handler) w :
  (∃ unsubscribe w', on capabilityManagers eventType handler w = (Returned unsubscribe, w'))
  ∧ (((∀ m, m ∈ capabilityManagers → eventType ∉ CapabilityManager.eventsToSubscribe m)
      ∧ ∃ unsubscribe,
          on capabilityManagers eventType handler w
          = (Returned unsubscribe, log_call (LogError "Unknown event type") w)
          ∧ ∀ w', unsubscribe w' = w')
     ∨ (∃ pre m post,
          capabilityManagers = (pre ++ m :: post)%list
          ∧ (∀ m', m' ∈ pre → eventType ∉ CapabilityManager.eventsToSubscribe m')
          ∧ eventType ∈ CapabilityManager.eventsToSubscribe m
          ∧ on capabilityManagers eventType handler w
            = (Returned (fst (CapabilityManager.subscribeHandler m eventType handler w)),
               snd (CapabilityManager.subscribeHandler m eventType handler w)))).
Proof.
  unfold on, getManagerByEventToSubscribeType.
  destruct (find_cases
              (fun manager => bool_decide (eventType ∈ CapabilityManager.eventsToSubscribe manager))
              capabilityManagers)
    as [[Hnone Hall]|(pre & m & post & Heq & Hpre & Hm & Hfind)].
  - rewrite Hnone. split; [eauto|]. left. split.
    + intros m Hin. apply includes_false, (Hall m Hin).
    + eexists. split; [reflexivity|]. reflexivity.
  - rewrite Hfind.
    destruct (CapabilityManager.subscribeHandler m eventType handler w) as [u w'] eqn:Hsub.
    split; [eauto|]. right. exists pre, m, post.
    split; [exact Heq|]. split; [|split].
    + intros m' Hin. apply includes_false, (Hpre m' Hin).
    + apply bool_decide_eq_true in Hm. exact Hm.
    + rewrite Hsub. reflexivity.
Qed.

(** C5. [triggerEvent].  Either no manager lists the event type among its
    [eventsToTrigger], and then the call logs one error and does nothing
    else: it returns and the world is the old one but for that log entry;
    or the call is the first listing manager's [triggerEvent], with the
    data given, or with the empty object when the data is omitted. *)
Theorem triggerEvent_routes (eventType : string) (data : JsVal) w :
  ((∀ m, m ∈ capabilityManagers → eventType ∉ CapabilityManager.eventsToTrigger m)
   ∧ triggerEvent capabilityManagers eventType data w
     = (Returned tt, log_call (LogError "Unknown event type") w)
   ∧ ext (snd (triggerEvent capabilityManagers eventType data w)) = ext w
   ∧ heap (snd (triggerEvent capabilityManagers eventType data w)) = heap w)
  ∨ (∃ pre m post,
       capabilityManagers = (pre ++ m :: post)%list
       ∧ (∀ m', m' ∈ pre → eventType ∉ CapabilityManager.eventsToTrigger m')
       ∧ eventType ∈ CapabilityManager.eventsToTrigger m
       ∧ triggerEvent capabilityManagers eventType data w
         = CapabilityManager.triggerEvent m eventType
             (match data with JUndefined => JObj [] | _ => data end) w
       ∧ triggerEvent capabilityManagers eventType JUndefined w
         = CapabilityManager.triggerEvent m eventType (JObj []) w).
Proof.
  unfold triggerEvent, getManagerByEventToTriggerType.
  destruct (find_cases
              (fun manager => bool_decide (eventType ∈ CapabilityManager.eventsToTrigger manager))
              capabilityManagers)
    as [[Hnone Hall]|(pre & m & post & Heq & Hpre & Hm & Hfind)].
  - rewrite Hnone. left. split; [|split; [reflexivity|split; reflexivity]].
    intros m Hin. apply includes_false, (Hall m Hin).
  - rewrite Hfind. right. exists pre, m, post.
    split; [exact Heq|]. split; [|split; [|split; reflexivity]].
    + intros m' Hin. apply includes_false, (Hpre m' Hin).
    + apply bool_decide_eq_true in Hm. exact Hm.
Qed.

End RoutingFacts.

(** ** The context-change notification *)

Section ContextChangeFacts.
Import World DDClient ContextChange.
Variables Ext Handler : Type.
Variable CONTEXT_CHANGE : string.
Variable capabilityManagers : list (CapabilityManager.t Ext Handler).

Lemma find_first {A} (f : A → bool) (pre post : list A) (x : A) :
  (∀ y, y ∈ pre → f y = false) → f x = true → find f (pre ++ x :: post)%list = Some x.
Proof.
  intros Hpre Hx. induction pre as [|a pre IH]; simpl.
  - rewrite Hx. reflexivity.
  - rewrite (Hpre a) by apply list_elem_of_here.
    apply IH. intros y Hy. apply Hpre, list_elem_of_further, Hy.
Qed.

Lemma replace_context_held (payload : JsVal) (w : World.t Ext) :
  held (replace_context payload w) = Some (Yields payload).
Proof.
  unfold replace_context, held.
  destruct (defer (heap w)) as [d h] eqn:Hd. simpl.
  apply await_fulfilled, resolve_fulfilled.
  replace d with (fst (defer (heap w))) by (rewrite Hd; reflexivity).
  replace h with (snd (defer (heap w))) by (rewrite Hd; reflexivity).
  apply defer_pending.
Qed.

(** C2. When the first manager that subscribes to the context-changed
    event handles it as the design document says, an inbound event of that
    type arriving after the initial context was resolved replaces the held
    context by the payload, whole: from then on a caller of [getContext]
    gets exactly the payload, whatever the initial context was and
    whatever [init] calls, [getContext] calls and turns come in between. *)
Theorem context_change_replaces (pre post : list (CapabilityManager.t Ext Handler))
    (m : CapabilityManager.t Ext Handler) (initial payload : JsVal)
    (w : World.t Ext) (evs : list Event) :
  capabilityManagers = (pre ++ m :: post)%list →
  (∀ m', m' ∈ pre → CONTEXT_CHANGE ∉ CapabilityManager.eventsToSubscribe m') →
  CONTEXT_CHANGE ∈ CapabilityManager.eventsToSubscribe m →
  handles_context_change CONTEXT_CHANGE m →
  held w = Some (Yields initial) →
  let w' := run evs (snd (handleEvent capabilityManagers CONTEXT_CHANGE payload w)) in
  fst (handleEvent capabilityManagers CONTEXT_CHANGE payload w) = Returned tt
  ∧ held w' = Some (Yields payload)
  ∧ await (heap (snd (getContext w'))) (fst (getContext w')) = Some (Yields payload).
Proof.
  intros Hmanagers Hpre Hm Hhandles _ w'.
  assert (handleEvent capabilityManagers CONTEXT_CHANGE payload w
          = (Returned tt, replace_context payload w)) as Hrun.
  { unfold handleEvent, getManagerByEventToSubscribeType.
    rewrite Hmanagers, find_first.
    - apply Hhandles.
    - intros y Hy. apply bool_decide_eq_false, (Hpre y Hy).
    - apply bool_decide_eq_true, Hm. }
  subst w'. rewrite Hrun. simpl.
  split; [reflexivity|].
  assert (held (run evs (replace_context payload w)) = Some (Yields payload)) as Hlater.
  { unfold held. rewrite run_context. apply run_await.
    apply replace_context_held. }
  split; [exact Hlater|]. apply getContext_held, Hlater.
Qed.

End ContextChangeFacts.

(** ** The modal capability *)

Section ModalFacts.
Import TestUtils Modal.
Variables MODALS OPEN_MODAL : string.
Variable response : JsVal.



End ModalFacts.

(** ** Worked examples *)

Section Examples.
Import World DDClient Samples.

(** The gate on the sample registry. *)
Example gate_always_enabled :
  fst (isEventEnabled sample_enabledEvents sample_features "context_change" [] memo_new)
  = Returned true.
Proof. vm_compute. reflexivity. Qed.

Example gate_feature_present :
  fst (isEventEnabled sample_enabledEvents sample_features "modal_close" ["side_panels"] memo_new)
  = Returned true.
Proof. vm_compute. reflexivity. Qed.

Example gate_feature_absent :
  fst (isEventEnabled sample_enabledEvents sample_features "modal_action" ["side_panels"] memo_new)
  = Returned false.
Proof. vm_compute. reflexivity. Qed.

Example gate_unknown_event :
  fst (isEventEnabled sample_enabledEvents sample_features "no_such_event"
         (map type sample_features) memo_new)
  = Returned false.
Proof. vm_compute. reflexivity. Qed.

(** The second call of the memoized getter does not look at the registry. *)
Example second_call_reuses_first :
  call_each getFeatureTypesByEvent [sample_features; []] memo_new
  = [Some (reverseMap sample_features); Some (reverseMap sample_features)].
Proof. reflexivity. Qed.

(** [validateKey] on the shapes the tests use, and on some others. *)
Example validateKey_samples :
  validateKey (JStr "my-modal") = Returned true
  ∧ validateKey (JStr EmptyString) = Returned false
  ∧ validateKey (JObj [("key", JStr "my-modal"); ("source", JStr "modal.html")]) = Returned true
  ∧ validateKey (JObj [("source", JStr "modal.html")]) = Threw (Error missing_key_message)
  ∧ validateKey (JObj [("key", JStr EmptyString)]) = Threw (Error missing_key_message)
  ∧ validateKey (JNum 7) = Threw (Error missing_key_message)
  ∧ validateKey JNull = Threw (TypeError "Cannot read property of null or undefined").
Proof. repeat split. Qed.

(** client.test.ts, [returns app context after it is supplied from
    parent], on the client of client.ts. *)
Example context_after_init :
  await (heap (snd (getContext readyClient))) (fst (getContext readyClient))
  = Some (Yields (TestUtils.mockContext "dashboard_cog_menu")).
Proof. reflexivity. Qed.

(** An [init] that comes before the handshake stays parked. *)
Example early_init_is_parked :
  let w := run [HostCallsInit (JStr "early"); Turn; Turn] (constructor [] tt) in
  held w = None ∧ suspended w = [InitAwaitsHandshake (JStr "early")].
Proof. split; reflexivity. Qed.

(** After a rejected handshake an [init] ends without resolving. *)
Example failed_handshake_never_resolves :
  let w := run [HostCallsInit (JStr "ctx"); HandshakeRejected (JStr "timeout"); Turn]
               (constructor [] tt) in
  held w = None ∧ suspended w = [].
Proof. split; reflexivity. Qed.

(** modal.test.ts, [sends an open modal request with definition to
    parent] and [throws an error if app does not have modals feature
    enabled], in both orders of the checks. *)
Example open_sends_request (order : Modal.CheckOrder) :
  let definition := JObj [("key", JStr "my-modal"); ("source", JStr "modal.html")] in
  let c := TestUtils.init "dashboard_cog_menu" modalsContext (TestUtils.constructor []) in
  fst (Modal.open "modals" "open_modal" JNull order definition c) = Some (Returned JNull)
  ∧ TestUtils.requests (snd (Modal.open "modals" "open_modal" JNull order definition c))
    = [("open_modal", JObj [("definition", definition)])].
Proof. destruct order; split; reflexivity. Qed.

Example open_needs_feature (order : Modal.CheckOrder) :
  let definition := JObj [("key", JStr "my-modal"); ("source", JStr "modal.html")] in
  let c := TestUtils.init "dashboard_cog_menu" JUndefined (TestUtils.constructor []) in
  Modal.open "modals" "open_modal" JNull order definition c
  = (Some (Threw (CapabilityNotEnabledError "modals feature is not enabled")), c).
Proof. destruct order; reflexivity. Qed.

(** Routing on the sample managers. *)
Example on_unknown_event :
  on sample_managers "no_such_event" 0 readyClient
  = (Returned (fun w => w), log_call (LogError "Unknown event type") readyClient).
Proof. reflexivity. Qed.

Example triggerEvent_default_data :
  ext (snd (triggerEvent sample_managers "open_modal" JUndefined readyClient))
  = [("open_modal", JObj [])].
Proof. reflexivity. Qed.

Example handleEvent_unknown_event :
  handleEvent sample_managers "no_such_event" JNull readyClient
  = (Returned tt,
     log_call (LogError "Could not handle event: no corresponding manager found") readyClient).
Proof. reflexivity. Qed.

End Examples.

(** ** Instances of the theorems that have hypotheses *)

Section Witnesses.
Import World DDClient Samples.

(** C6 at a run where the host calls [init] before the handshake is done. *)
Lemma init_resolves_after_handshake_witness :
  let w := run [HostCallsInit (JStr "ctx"); Turn; HandshakeFulfilled (JStr "parent")]
               (constructor [] tt) in
  (held w = None ∧ held (step Turn w) = Some (Yields (JStr "ctx")))
  ∧ (Turn = Turn
     ∧ ∃ parent c rest,
         suspended w = InitAwaitsHandshake c :: rest
         ∧ await (heap w) (handshake w) = Some (Yields parent)
         ∧ Yields (JStr "ctx") = Yields c).
Proof.
  intros w. split; [split; reflexivity|].
  apply (init_resolves_after_handshake unit [] tt
           [HostCallsInit (JStr "ctx"); Turn; HandshakeFulfilled (JStr "parent")]
           Turn (Yields (JStr "ctx")));
    reflexivity.
Defined.

(** C3 at a run with one caller before the resolution, one after, and a
    second [init] with another context at the end. *)
Lemma getContext_before_and_after_witness :
  let w1 := run [HostCallsInit (JStr "ctx")] (constructor [] tt) in
  let early := fst (getContext w1) in
  let w2 := run [HandshakeFulfilled (JStr "parent"); Turn] (snd (getContext w1)) in
  let late := fst (getContext w2) in
  let w3 := run [HostCallsInit (JStr "other"); Turn] (snd (getContext w2)) in
  (await (heap (snd (getContext w1))) early = None ∧ held w2 = Some (Yields (JStr "ctx")))
  ∧ (await (heap w2) early = Some (Yields (JStr "ctx"))
     ∧ await (heap (snd (getContext w2))) late = Some (Yields (JStr "ctx"))
     ∧ await (heap w3) early = Some (Yields (JStr "ctx"))
     ∧ await (heap w3) late = Some (Yields (JStr "ctx"))).
Proof.
  intros w1 early w2 late w3. split; [split; reflexivity|].
  apply (getContext_before_and_after unit [] tt
           [HostCallsInit (JStr "ctx")]
           [HandshakeFulfilled (JStr "parent"); Turn]
           [HostCallsInit (JStr "other"); Turn]
           (JStr "ctx"));
    reflexivity.
Defined.

(** C9 at a second resolve, a reject and a second [init]. *)
Lemma defer_first_resolution_wins_witness :
  await (foldl (fun h o => heap_op o h)
           (resolve (fst (defer [])) (JStr "first") (snd (defer [])))
           [Resolve (fst (defer [])) (JStr "second"); Reject (fst (defer [])) (JStr "no"); Alloc])
        (promise (fst (defer []))) = Some (Yields (JStr "first"))
  ∧ held readyClient = Some (Yields (TestUtils.mockContext "dashboard_cog_menu"))
  ∧ await (heap (snd (getContext (run [HostCallsInit (JStr "second"); Turn] readyClient))))
          (fst (getContext (run [HostCallsInit (JStr "second"); Turn] readyClient)))
    = Some (Yields (TestUtils.mockContext "dashboard_cog_menu")).
Proof.
  pose proof (defer_first_resolution_wins [] (JStr "first")
                [Resolve (fst (defer [])) (JStr "second");
                 Reject (fst (defer [])) (JStr "no"); Alloc]) as (_ & _ & Hops & Hclient).
  split; [exact Hops|]. split; [reflexivity|].
  apply Hclient. reflexivity.
Defined.

(** C2 at the scenario of client.test.ts: the initial context is
    [mockContext], the payload is [{data: 'new context'}]. *)
Lemma context_change_replaces_witness :
  held readyClient = Some (Yields (TestUtils.mockContext "dashboard_cog_menu"))
  ∧ await (heap (snd (getContext (snd (handleEvent sample_managers "context_change"
                                         (JObj [("data", JStr "new context")]) readyClient)))))
          (fst (getContext (snd (handleEvent sample_managers "context_change"
                                   (JObj [("data", JStr "new context")]) readyClient))))
    = Some (Yields (JObj [("data", JStr "new context")])).
Proof.
  split; [reflexivity|].
  apply (context_change_replaces _ _ "context_change" sample_managers
           [modalManager] [] contextManager
           (TestUtils.mockContext "dashboard_cog_menu")
           (JObj [("data", JStr "new context")]) readyClient []).
  - reflexivity.
  - intros m' Hm'. apply list_elem_of_singleton in Hm'. subst m'.
    simpl. apply (proj1 (bool_decide_eq_false _)). vm_compute. reflexivity.
  - simpl. apply list_elem_of_here.
  - intros data w. reflexivity.
  - reflexivity.
Defined.



End Witnesses.

(* ===================================================================== *)
(** * Part III: further properties of the code *)
(* ===================================================================== *)

(** ** Inbound dispatch in the client facade *)

Section DispatchFacts.
Import World DDClient.
Variables Ext Handler : Type.
Variable capabilityManagers : list (CapabilityManager.t Ext Handler).
Implicit Types (m : CapabilityManager.t Ext Handler) (w : World.t Ext).

(** X1. [handleEvent] on an event type that no manager lists among its
    [eventsToSubscribe] returns without throwing, logs one error and leaves
    everything else as it was; otherwise the call is the [handleEvent] of
    the first manager that lists the type, later managers that list it too
    are not consulted. *)
Theorem handleEvent_routes (eventType : string) (data : JsVal) w :
  ((∀ m, m ∈ capabilityManagers → eventType ∉ CapabilityManager.eventsToSubscribe m)
   ∧ handleEvent capabilityManagers eventType data w
     = (Returned tt,
        log_call (LogError "Could not handle event: no corresponding manager found") w)
   ∧ heap (snd (handleEvent capabilityManagers eventType data w)) = heap w
   ∧ World.context (snd (handleEvent capabilityManagers eventType data w)) = World.context w
   ∧ ext (snd (handleEvent capabilityManagers eventType data w)) = ext w)
  ∨ (∃ pre m post,
       capabilityManagers = (pre ++ m :: post)%list
       ∧ (∀ m', m' ∈ pre → eventType ∉ CapabilityManager.eventsToSubscribe m')
       ∧ eventType ∈ CapabilityManager.eventsToSubscribe m
       ∧ handleEvent capabilityManagers eventType data w
         = CapabilityManager.handleEvent m eventType data w).
Proof.
  unfold handleEvent, getManagerByEventToSubscribeType.
  destruct (find_cases
              (fun manager => bool_decide (eventType ∈ CapabilityManager.eventsToSubscribe manager))
              capabilityManagers)
    as [[Hnone Hall]|(pre & m & post & Heq & Hpre & Hm & Hfind)].
  - rewrite Hnone. left. split; [|repeat split].
    intros m Hin. apply includes_false, (Hall m Hin).
  - rewrite Hfind. right. exists pre, m, post.
    split; [exact Heq|]. split; [|split; [|reflexivity]].
    + intros m' Hin. apply includes_false, (Hpre m' Hin).
    + apply bool_decide_eq_true in Hm. exact Hm.
Qed.

(** X2. Subscription and dispatch agree on the owner of an event type: the
    manager that [on] registers a handler with is the manager that
    [handleEvent] hands events of that type to, in whatever states the two
    calls are made; and [on] answers with its do-nothing unsubscribe
    exactly when [handleEvent] drops the event. *)
Theorem on_and_handleEvent_same_owner (eventType : string) (handler : Handler)
    (data : JsVal) (w1 w2 : World.t Ext) :
  (on capabilityManagers eventType handler w1
   = (Returned (fun w => w), log_call (LogError "Unknown event type") w1)
   ∧ handleEvent capabilityManagers eventType data w2
     = (Returned tt,
        log_call (LogError "Could not handle event: no corresponding manager found") w2))
  ∨ (∃ m, m ∈ capabilityManagers
       ∧ eventType ∈ CapabilityManager.eventsToSubscribe m
       ∧ on capabilityManagers eventType handler w1
         = (Returned (fst (CapabilityManager.subscribeHandler m eventType handler w1)),
            snd (CapabilityManager.subscribeHandler m eventType handler w1))
       ∧ handleEvent capabilityManagers eventType data w2
         = CapabilityManager.handleEvent m eventType data w2).
Proof.
  unfold on, handleEvent, getManagerByEventToSubscribeType.
  destruct (find_cases
              (fun manager => bool_decide (eventType ∈ CapabilityManager.eventsToSubscribe manager))
              capabilityManagers)
    as [[Hnone Hall]|(pre & m & post & Heq & Hpre & Hm & Hfind)].
  - rewrite Hnone. left. split; reflexivity.
  - rewrite Hfind. right. exists m.
    split; [rewrite Heq; apply elem_of_app; right; apply list_elem_of_here|].
    split; [apply bool_decide_eq_true in Hm; exact Hm|].
    split; [|reflexivity].
    destruct (CapabilityManager.subscribeHandler m eventType handler w1); reflexivity.
Qed.

End DispatchFacts.

(** ** More on [defer] *)

Section DeferFacts.
Implicit Types (h : Heap) (d : Deferred).

Lemma await_rejected h (p : nat) (r : JsVal) :
  h !! p = Some (Rejected r) → await h p = Some (Throws r).
Proof. intros Hp. unfold await. rewrite await_at_unfold, Hp. reflexivity. Qed.

Lemma defer_fresh h : promise (fst (defer h)) = length h ∧ snd (defer h) = (h ++ [Pending])%list.
Proof. split; reflexivity. Qed.

(** X3. Rejection is as final as resolution: after [reject r] on a fresh
    deferred its promise throws [r] to every waiter, and no later
    [resolve] or [reject], on it or on any other deferred, and no
    allocation changes that. *)
Theorem defer_first_rejection_wins (h : Heap) (r : JsVal) (ops : list HeapOp) :
  let d := fst (defer h) in
  let h1 := reject d r (snd (defer h)) in
  await h1 (promise d) = Some (Throws r)
  ∧ await (foldl (fun h o => heap_op o h) h1 ops) (promise d) = Some (Throws r)
  ∧ await (resolve d r h1) (promise d) = Some (Throws r).
Proof.
  intros d h1.
  assert (await h1 (promise d) = Some (Throws r)) as Hr.
  { apply await_rejected. apply settle_pending, defer_pending. }
  split; [exact Hr|]. split; [apply await_heap_ops, Hr|].
  apply (await_heap_ops [Resolve d r]), Hr.
Qed.

(** X4. Two deferreds made one after the other have promises of their
    own: settling either leaves the other pending, and making a deferred
    leaves every promise that was there before as it was. *)
Theorem defer_promises_independent (h : Heap) (v : JsVal) :
  let d1 := fst (defer h) in
  let d2 := fst (defer (snd (defer h))) in
  let h2 := snd (defer (snd (defer h))) in
  promise d1 ≠ promise d2
  ∧ await (resolve d1 v h2) (promise d1) = Some (Yields v)
  ∧ await (resolve d1 v h2) (promise d2) = None
  ∧ await (reject d1 v h2) (promise d2) = None
  ∧ await (resolve d2 v h2) (promise d1) = None
  ∧ await (reject d2 v h2) (promise d1) = None
  ∧ ∀ p, p < length h → h2 !! p = h !! p.
Proof.
  intros d1 d2 h2.
  assert (promise d1 = length h) as H1 by reflexivity.
  assert (promise d2 = S (length h)) as H2.
  { unfold d2, defer, new_promise. simpl. rewrite length_app. simpl. lia. }
  assert (h2 = (h ++ [Pending; Pending])%list) as Hh2.
  { unfold h2, defer, new_promise. simpl. rewrite <- app_assoc. reflexivity. }
  assert (h2 !! promise d1 = Some Pending) as Hc1.
  { rewrite Hh2, H1. rewrite lookup_app_r by lia. rewrite Nat.sub_diag. reflexivity. }
  assert (h2 !! promise d2 = Some Pending) as Hc2.
  { rewrite Hh2, H2. rewrite lookup_app_r by lia.
    replace (S (length h) - length h) with 1 by lia. reflexivity. }
  assert (promise d1 ≠ promise d2) as Hne by lia.
  split; [exact Hne|].
  split; [apply await_fulfilled, resolve_fulfilled, Hc1|].
  split; [apply await_pending; unfold resolve; rewrite settle_other by exact Hne; exact Hc2|].
  split; [apply await_pending; unfold reject; rewrite settle_other by exact Hne; exact Hc2|].
  split; [apply await_pending; unfold resolve; rewrite settle_other by auto; exact Hc1|].
  split; [apply await_pending; unfold reject; rewrite settle_other by auto; exact Hc1|].
  intros p Hp. rewrite Hh2. apply lookup_app_l. exact Hp.
Qed.

End DeferFacts.

(** ** More on the registry and the gate *)

Section MoreGateFacts.
Variable enabledEvents : gset string.
Variable features : list FeatureDefinition.
Implicit Types (m : gmap string (gset string)) (e ft f : string).

Lemma add_feature_inhabited ft m e :
  entries_inhabited m → entries_inhabited (add_feature ft m e).
Proof.
  intros Hm e' s. rewrite add_feature_lookup.
  destruct (decide (e = e')) as [_|_]; [|apply Hm].
  intros Hs. injection Hs as <-. exists ft. set_solver.
Qed.

Lemma reverseMap_inhabited (fds : list FeatureDefinition) : entries_inhabited (reverseMap fds).
Proof.
  unfold reverseMap.
  assert (∀ m, entries_inhabited m →
    entries_inhabited
      (foldl (fun m feature => foldl (add_feature (type feature)) m (events feature)) m fds)) as H.
  { induction fds as [|fd fds IH]; intros m Hm; simpl; [exact Hm|].
    apply IH. generalize dependent m.
    induction (events fd) as [|e evs IHe]; intros m Hm; simpl; [exact Hm|].
    apply IHe, add_feature_inhabited, Hm. }
  apply H. intros e s Hs. rewrite lookup_empty in Hs. discriminate.
Qed.

(** X5. What the getter of [getFeatureTypesByEvent] builds: the map has
    an entry for an event exactly when some feature definition lists the
    event, and the entry is then the set of the types of the definitions
    that list it, so it is never empty; definitions that repeat an event
    or share a type add nothing twice. *)
Theorem reverseMap_content (fds : list FeatureDefinition) (e : string) :
  match reverseMap fds !! e with
  | None => ∀ fd, fd ∈ fds → e ∉ events fd
  | Some s =>
      (∃ fd, fd ∈ fds ∧ e ∈ events fd)
      ∧ ∀ f, f ∈ s ↔ ∃ fd, fd ∈ fds ∧ e ∈ events fd ∧ type fd = f
  end.
Proof.
  destruct (reverseMap fds !! e) as [s|] eqn:Hs.
  - assert (∀ f, f ∈ s ↔ ∃ fd, fd ∈ fds ∧ e ∈ events fd ∧ type fd = f) as Hiff.
    { intros f. rewrite <- unlocks_reverseMap. unfold unlocks. split.
      - intros Hf. exists s. auto.
      - intros (s' & Hs' & Hf). congruence. }
    split; [|exact Hiff].
    destruct (reverseMap_inhabited fds e s Hs) as [f Hf].
    apply Hiff in Hf as (fd & H1 & H2 & _). exists fd. auto.
  - apply reverseMap_None, Hs.
Qed.

(** X6. Enabling more features never disables an event: if every feature
    of [fs] is also in [fs'] and the gate lets [e] through for [fs], it
    lets [e] through for [fs'], whatever calls came before either call. *)
Theorem isEventEnabled_monotone (prior prior' : list (string * list string))
    (e : string) (fs fs' : list string) :
  (∀ f, f ∈ fs → f ∈ fs') →
  fst (isEventEnabled enabledEvents features e fs
         (cell_after enabledEvents features prior)) = Returned true →
  fst (isEventEnabled enabledEvents features e fs'
         (cell_after enabledEvents features prior')) = Returned true.
Proof.
  intros Hsub.
  rewrite !isEventEnabled_unfold by apply cell_after_ok.
  intros H. injection H as H. f_equal.
  apply gate_body_iff. apply gate_body_iff in H.
  destruct H as [H|(fd & H1 & H2 & H3)]; [left; exact H|].
  right. exists fd. auto.
Qed.

(** X7. The order of the enabled features and their repetition do not
    matter: two lists with the same members get the same answer. *)
Theorem isEventEnabled_same_members (prior prior' : list (string * list string))
    (e : string) (fs fs' : list string) :
  (∀ f, f ∈ fs ↔ f ∈ fs') →
  fst (isEventEnabled enabledEvents features e fs
         (cell_after enabledEvents features prior))
  = fst (isEventEnabled enabledEvents features e fs'
           (cell_after enabledEvents features prior')).
Proof.
  intros Hsame.
  rewrite !isEventEnabled_unfold by apply cell_after_ok. f_equal.
  apply eq_true_iff_eq. rewrite !gate_body_iff.
  split; (intros [H|(fd & H1 & H2 & H3)]; [left; exact H|]);
    right; exists fd; (split; [exact H1|split; [exact H2|apply Hsame, H3]]).
Qed.

(** X8. With no feature enabled the gate lets through exactly the
    always-enabled events. *)
Theorem isEventEnabled_no_features (prior : list (string * list string)) (e : string) :
  fst (isEventEnabled enabledEvents features e []
         (cell_after enabledEvents features prior))
  = Returned (bool_decide (e ∈ enabledEvents)).
Proof.
  rewrite isEventEnabled_unfold by apply cell_after_ok. f_equal.
  destruct (bool_decide (e ∈ enabledEvents)); [reflexivity|].
  destruct (reverseMap features !! e); reflexivity.
Qed.

End MoreGateFacts.

(** ** The context of the mock frame client *)

Section MockContextFacts.
Import TestUtils.

(** X9. [MockFramePostChildClient]: before [init] a caller of
    [getContext] keeps waiting; after [init(override)] it gets [override],
    or [mockContext] when [override] is left out or falsy; a second [init]
    with another override changes nothing. *)
Theorem mock_init_resolves_once (DASHBOARD_COG_MENU : string) (h : Heap)
    (override other : JsVal) :
  let c := init DASHBOARD_COG_MENU override (constructor h) in
  getContext (constructor h) = None
  ∧ getContext c
    = Some (Yields (if truthy override then override else mockContext DASHBOARD_COG_MENU))
  ∧ getContext (init DASHBOARD_COG_MENU JUndefined (constructor h))
    = Some (Yields (mockContext DASHBOARD_COG_MENU))
  ∧ getContext (init DASHBOARD_COG_MENU other c) = getContext c.
Proof.
  intros c.
  assert (∀ o, getContext (init DASHBOARD_COG_MENU o (constructor h))
               = Some (Yields (if truthy o then o else mockContext DASHBOARD_COG_MENU))) as Hinit.
  { intros o. unfold getContext, init. cbn [heap context].
    change (context (constructor h)) with (fst (defer h)).
    change (heap (constructor h)) with (snd (defer h)).
    apply await_fulfilled, resolve_fulfilled, defer_pending. }
  split.
  { unfold getContext.
    change (context (constructor h)) with (fst (defer h)).
    change (heap (constructor h)) with (snd (defer h)).
    apply await_pending, defer_pending. }
  split; [apply Hinit|]. split; [apply (Hinit JUndefined)|].
  rewrite (Hinit override : getContext c = _).
  unfold getContext at 1. unfold init at 1. cbn [heap context].
  apply (await_heap_ops [Resolve (context c) _]). apply Hinit.
Qed.

End MockContextFacts.

(** ** [uniqueInt] *)

Section UniqueIntFacts.
Import UniqueInt.

Lemma calls_from (n : nat) (z : Z) :
  (0 <= z)%Z → (z + Z.of_nat n <= 2 ^ 53)%Z →
  calls n z = map (fun i => (z + Z.of_nat i)%Z) (seq 1 n).
Proof.
  revert z. induction n as [|n IH]; intros z Hz Hn; [reflexivity|].
  cbn [calls]. unfold uniqueInt.
  destruct (z <? 2 ^ 53)%Z eqn:Hlt; [|apply Z.ltb_ge in Hlt; lia].
  rewrite IH by lia.
  cbn [seq map]. f_equal.
  rewrite <- (seq_shift n 1), map_map. apply map_ext. intros i. lia.
Qed.

(** X10. [uniqueInt] counts: the first call returns 1 and the n-th call
    returns n, as long as n is at most 2^53, so these results are all
    different; from 2^53 on the counter no longer moves and the same
    number comes back. *)
Theorem uniqueInt_counts (n : nat) :
  (Z.of_nat n <= 2 ^ 53)%Z →
  calls n increment0 = map Z.of_nat (seq 1 n)
  ∧ NoDup (calls n increment0)
  ∧ uniqueInt (2 ^ 53) = ((2 ^ 53)%Z, (2 ^ 53)%Z).
Proof.
  intros Hn.
  assert (calls n increment0 = map Z.of_nat (seq 1 n)) as Hcalls.
  { unfold increment0. rewrite calls_from by lia. apply map_ext. intros i. lia. }
  split; [exact Hcalls|]. split; [|reflexivity].
  rewrite Hcalls. apply NoDup_fmap_2; [exact Nat2Z.inj|apply NoDup_ListNoDup, seq_NoDup].
Qed.

End UniqueIntFacts.

(** ** [MockLocalStorage] *)

Section MockLocalStorageFacts.
Import MockLocalStorage.

Lemma apply_length (o : Op) (s : t) : length (apply o s) = size (store (apply o s)).
Proof. destruct o; reflexivity. Qed.

Lemma run_snoc (ops : list Op) (o : Op) (s : t) :
  run (ops ++ [o])%list s = apply o (run ops s).
Proof. unfold run. rewrite foldl_app. reflexivity. Qed.

Lemma run_length (ops : list Op) : length (run ops constructor) = size (store (run ops constructor)).
Proof.
  induction ops as [|o ops _] using rev_ind; [reflexivity|].
  rewrite run_snoc. apply apply_length.
Qed.

(** No operation makes [__proto__] a stored key. *)
Lemma run_no_proto (ops : list Op) : store (run ops constructor) !! "__proto__" = None.
Proof.
  induction ops as [|o ops IH] using rev_ind; [reflexivity|].
  rewrite run_snoc. destruct o as [key value|key|]; simpl.
  - unfold setItem. simpl. destruct (String.eqb key "__proto__") eqn:Hk; [exact IH|].
    apply String.eqb_neq in Hk. rewrite lookup_insert_ne by exact Hk. exact IH.
  - destruct (decide (key = "__proto__")) as [->|Hne].
    + apply lookup_delete_eq.
    + rewrite lookup_delete_ne by exact Hne. exact IH.
  - reflexivity.
Qed.

(** X11. [length] is the number of stored keys after any sequence of
    [setItem], [removeItem] and [clear] on a new storage: [setItem] adds
    one when the key is new and nothing when it overwrites, [removeItem]
    takes one off when the key is stored and nothing otherwise, [clear]
    resets it to 0. *)
Theorem storage_length_counts_keys (ops : list Op) (key value : string) :
  let s := run ops constructor in
  length s = size (store s)
  ∧ length (setItem key value s)
    = (if bool_decide (is_Some (store s !! key) ∨ key = "__proto__")
       then length s else S (length s))
  ∧ length (removeItem key s)
    = (if bool_decide (is_Some (store s !! key)) then length s - 1 else length s)
  ∧ length (clear s) = 0.
Proof.
  intros s. pose proof (run_length ops) as Hlen. fold s in Hlen.
  split; [exact Hlen|]. split; [|split; [|reflexivity]].
  - unfold setItem. cbn [length]. rewrite Hlen.
    destruct (String.eqb key "__proto__") eqn:Hk.
    + apply String.eqb_eq in Hk. rewrite bool_decide_eq_true_2 by auto. reflexivity.
    + apply String.eqb_neq in Hk.
      destruct (store s !! key) as [v|] eqn:Hs.
      * rewrite bool_decide_eq_true_2 by eauto.
        apply map_size_insert_Some. eauto.
      * rewrite bool_decide_eq_false_2.
        -- apply map_size_insert_None, Hs.
        -- intros [[? ?]|?]; [discriminate|contradiction].
  - unfold removeItem. cbn [length]. rewrite Hlen.
    destruct (store s !! key) as [v|] eqn:Hs.
    + rewrite bool_decide_eq_true_2 by eauto.
      rewrite map_size_delete_Some by eauto. lia.
    + rewrite bool_decide_eq_false_2 by (intros [? ?]; discriminate).
      rewrite delete_id by exact Hs. reflexivity.
Qed.

(** X12. What [setItem] stores [getItem] reads back, with one exception
    the code makes: an empty string reads back as [null].  Other keys are
    not touched.  This is for every key but [__proto__]. *)
Theorem setItem_getItem (s : t) (key value : string) :
  key ≠ "__proto__" →
  getItem key (setItem key value s)
  = (if String.eqb value EmptyString then Null else Value value)
  ∧ ∀ key', key' ≠ key → getItem key' (setItem key value s) = getItem key' s.
Proof.
  intros Hk. apply String.eqb_neq in Hk.
  unfold getItem, setItem. rewrite Hk. cbn [store]. split.
  - rewrite lookup_insert_eq. reflexivity.
  - intros key' Hne. rewrite lookup_insert_ne by auto. reflexivity.
Qed.

(** X13. After [removeItem(key)] a read of [key] finds no stored value:
    it gives [null], or, for a key that names a member of
    [Object.prototype], that member; so does a read of any key of a new
    storage.  Other keys are not touched. *)
Theorem removeItem_getItem (s : t) (key : string) :
  getItem key (removeItem key s)
  = (if bool_decide (key ∈ object_prototype_names) then Inherited key else Null)
  ∧ getItem key constructor
    = (if bool_decide (key ∈ object_prototype_names) then Inherited key else Null)
  ∧ getItem key (clear s)
    = (if bool_decide (key ∈ object_prototype_names) then Inherited key else Null)
  ∧ ∀ key', key' ≠ key → getItem key' (removeItem key s) = getItem key' s.
Proof.
  unfold getItem, removeItem, constructor, clear. cbn [store].
  rewrite lookup_delete_eq, lookup_empty.
  split; [reflexivity|]. split; [reflexivity|]. split; [reflexivity|].
  intros key' Hne. rewrite lookup_delete_ne by auto. reflexivity.
Qed.

(** X14. A value stored under the key [__proto__] is lost: on a storage
    reached from a new one by any operations, [setItem('__proto__', v)]
    leaves the stored keys and [length] as they were, and [getItem] of
    that key gives the prototype object, not [v]. *)
Theorem setItem_proto_is_lost (ops : list Op) (value : string) :
  let s := run ops constructor in
  setItem "__proto__" value s = s
  ∧ getItem "__proto__" (setItem "__proto__" value s) = Inherited "__proto__".
Proof.
  intros s.
  assert (setItem "__proto__" value s = s) as Hsame.
  { unfold setItem. cbn. pose proof (run_length ops) as Hlen. fold s in Hlen.
    rewrite <- Hlen. destruct s; reflexivity. }
  split; [exact Hsame|]. rewrite Hsame.
  unfold getItem. unfold s. rewrite run_no_proto. reflexivity.
Qed.

End MockLocalStorageFacts.

(** ** The subscriptions of [MockFramePostChildClient] *)

Section MockSubscriptionsFacts.
Import MockSubscriptions.
Variable H : Type.
Variable call : H -> JsVal -> Outcome JsVal.
Implicit Types (s : MockSubscriptions.t H) (table : list (Z * H)) (id : Z) (h : H).

Lemma put_fresh id h table :
  Forall (fun id' => id' ≠ id) (map fst table) → put id h table = (table ++ [(id, h)])%list.
Proof.
  induction table as [|[id' h'] table IH]; intros Hall; [reflexivity|].
  inversion Hall as [|? ? Hne Hrest]; subst. cbn [put].
  destruct (id =? id')%Z eqn:He; [apply Z.eqb_eq in He; simpl in Hne; congruence|].
  rewrite IH by exact Hrest. reflexivity.
Qed.

Lemma put_keys id h table :
  map fst (put id h table) = map fst table
  ∨ (Forall (fun id' => id' ≠ id) (map fst table)
     ∧ map fst (put id h table) = (map fst table ++ [id])%list).
Proof.
  induction table as [|[id' h'] table IH]; [right; split; [constructor|reflexivity]|].
  cbn [put]. destruct (id =? id')%Z eqn:He; [left; reflexivity|].
  apply Z.eqb_neq in He.
  destruct IH as [IH|[Hall IH]]; [left|right]; cbn [map fst]; rewrite IH; [reflexivity|].
  split; [constructor; [simpl; congruence|exact Hall]|reflexivity].
Qed.

Lemma without_fresh id table :
  Forall (fun id' => id' ≠ id) (map fst table) → without id table = table.
Proof.
  induction table as [|[id' h'] table IH]; intros Hall; [reflexivity|].
  inversion Hall as [|? ? Hne Hrest]; subst. unfold without in *. cbn [List.filter fst].
  simpl in Hne.
  destruct (id =? id')%Z eqn:He; [apply Z.eqb_eq in He; congruence|].
  cbn [negb]. rewrite IH by exact Hrest. reflexivity.
Qed.

Lemma without_app id table table' :
  without id (table ++ table')%list = (without id table ++ without id table')%list.
Proof. unfold without. apply List.filter_app. Qed.

Lemma without_idem id table : without id (without id table) = without id table.
Proof.
  induction table as [|[id' h'] table IH]; [reflexivity|].
  unfold without in *. cbn [List.filter]. simpl.
  destruct (id =? id')%Z eqn:He; simpl; [exact IH|].
  rewrite He. simpl. rewrite IH. reflexivity.
Qed.

Lemma without_keys_sorted id table :
  StronglySorted Z.lt (map fst table) → StronglySorted Z.lt (map fst (without id table)).
Proof.
  induction table as [|[id' h'] table IH]; intros Hs; [constructor|].
  inversion Hs as [|? ? Hrest Hall]; subst.
  unfold without in *. cbn [List.filter]. simpl.
  destruct (id =? id')%Z; simpl; [apply IH, Hrest|].
  constructor; [apply IH, Hrest|].
  clear -Hall. induction table as [|[id'' h''] table IHt]; [constructor|].
  inversion Hall; subst. cbn [List.filter]. simpl.
  destruct (id =? id'')%Z; simpl; [auto|constructor; auto].
Qed.

Lemma without_keys_bounded id (z : Z) table :
  Forall (fun id' => (id' <= z)%Z) (map fst table) →
  Forall (fun id' => (id' <= z)%Z) (map fst (without id table)).
Proof.
  induction table as [|[id' h'] table IH]; intros Hall; [constructor|].
  inversion Hall; subst. unfold without in *. cbn [List.filter]. simpl.
  destruct (id =? id')%Z; simpl; [auto|constructor; auto].
Qed.

Lemma sorted_snoc (l : list Z) (y : Z) :
  StronglySorted Z.lt l → Forall (fun x => (x < y)%Z) l → StronglySorted Z.lt (l ++ [y])%list.
Proof.
  induction l as [|x l IH]; intros Hs Hall; simpl.
  - constructor; constructor.
  - inversion Hs; subst. inversion Hall; subst.
    constructor; [auto|]. apply Forall_app. split; [assumption|]. constructor; [assumption|constructor].
Qed.

Lemma uniqueInt_below (z : Z) :
  (z < 2 ^ 53)%Z → UniqueInt.uniqueInt z = ((z + 1)%Z, (z + 1)%Z).
Proof.
  intros Hz. unfold UniqueInt.uniqueInt.
  destruct (z <? 2 ^ 53)%Z eqn:Hlt; [reflexivity|apply Z.ltb_ge in Hlt; lia].
Qed.

Lemma on_below (eventType : string) h s :
  eventType ∉ MockLocalStorage.object_prototype_names →
  (increment s < 2 ^ 53)%Z →
  on eventType h s
  = Some (unsubscribe eventType (increment s + 1),
          {| increment := (increment s + 1)%Z;
             subscriptions :=
               <[eventType := put (increment s + 1) h
                                (default [] (subscriptions s !! eventType))]> (subscriptions s);
             requestSubscriptions := requestSubscriptions s |}).
Proof.
  intros Hev Hz. unfold on.
  rewrite bool_decide_eq_false_2 by exact Hev.
  rewrite uniqueInt_below by exact Hz. reflexivity.
Qed.

(** The table of an event type in a state that satisfies the invariant. *)
Lemma table_fresh (eventType : string) s :
  ids_handed_out s →
  StronglySorted Z.lt (map fst (default [] (subscriptions s !! eventType)))
  ∧ Forall (fun id => (id <= increment s)%Z) (map fst (default [] (subscriptions s !! eventType))).
Proof.
  intros [_ Hs]. destruct (subscriptions s !! eventType) as [table|] eqn:Ht.
  - apply (Hs eventType table Ht).
  - split; constructor.
Qed.

Lemma Forall_lt_ne (l : list Z) (z : Z) :
  Forall (fun id => (id <= z)%Z) l → Forall (fun id' => id' ≠ (z + 1)%Z) l.
Proof. intros Hall. eapply Forall_impl; [exact Hall|]. intros; simpl in *; lia. Qed.

(** X15. [on] on a state whose ids the counter has handed out, when the
    counter is below 2^53 and the event type is not the name of a member
    of [Object.prototype]: the handler is added after the handlers already
    subscribed to the event type, the other event types are not touched,
    the counter moves on by one, the returned unsubscribe undoes exactly
    this, and the state keeps its ids in order. *)
Theorem on_subscribes_last (eventType : string) h s :
  ids_handed_out s →
  (increment s < 2 ^ 53)%Z →
  eventType ∉ MockLocalStorage.object_prototype_names →
  ∃ unsub s',
    on eventType h s = Some (unsub, s')
    ∧ subscribed eventType s' = (subscribed eventType s ++ [h])%list
    ∧ (∀ other, other ≠ eventType → subscribed other s' = subscribed other s)
    ∧ increment s' = (increment s + 1)%Z
    ∧ ids_handed_out s'
    ∧ fst (unsub s') = Returned tt
    ∧ subscribed eventType (snd (unsub s')) = subscribed eventType s
    ∧ (∀ other, other ≠ eventType →
         subscribed other (snd (unsub s')) = subscribed other s).
Proof.
  intros Hinv Hz Hev.
  destruct (table_fresh eventType s Hinv) as [Hsorted Hbound].
  pose proof (Forall_lt_ne _ _ Hbound) as Hfresh.
  eexists _, _. split; [apply on_below; assumption|].
  unfold subscribed. cbn [subscriptions].
  rewrite lookup_insert_eq. cbn [default from_option id].
  rewrite put_fresh by exact Hfresh.
  split; [rewrite map_app; reflexivity|].
  split; [intros other Hne; rewrite lookup_insert_ne by auto; reflexivity|].
  split; [reflexivity|].
  split.
  { destruct Hinv as [Hpos Htables]. split; [cbn; lia|].
    intros ev table. cbn [subscriptions increment].
    destruct (decide (eventType = ev)) as [<-|Hne].
    - rewrite lookup_insert_eq. intros Ht. injection Ht as <-.
      rewrite map_app. cbn [map fst]. split.
      + apply sorted_snoc; [exact Hsorted|].
        eapply Forall_impl; [exact Hbound|]. intros; simpl in *; lia.
      + apply Forall_app. split.
        * eapply Forall_impl; [exact Hbound|]. intros; simpl in *; lia.
        * constructor; [lia|constructor].
    - rewrite lookup_insert_ne by exact Hne. intros Ht.
      destruct (Htables ev table Ht) as [H1 H2]. split; [exact H1|].
      eapply Forall_impl; [exact H2|]. intros; simpl in *; lia. }
  unfold unsubscribe. cbn [subscriptions]. rewrite lookup_insert_eq. cbn [fst snd subscriptions].
  split; [reflexivity|].
  rewrite lookup_insert_eq. cbn [default from_option id].
  rewrite without_app, (without_fresh _ _ Hfresh).
  unfold without at 1. cbn [List.filter]. simpl. rewrite Z.eqb_refl. simpl.
  rewrite app_nil_r. split; [reflexivity|].
  intros other Hne. rewrite !lookup_insert_ne by auto. reflexivity.
Qed.

(** X16. Two subscriptions to one event type, the second made right after
    the first: each unsubscribe removes its own handler and leaves the
    other, also when the two handlers are the same function; calling an
    unsubscribe twice is as calling it once; after both, the handlers of
    the event type are as before. *)
Theorem unsubscribe_removes_own (eventType : string) (h1 h2 : H) s :
  ids_handed_out s →
  (increment s + 1 < 2 ^ 53)%Z →
  eventType ∉ MockLocalStorage.object_prototype_names →
  ∃ unsub1 s1 unsub2 s2,
    on eventType h1 s = Some (unsub1, s1)
    ∧ on eventType h2 s1 = Some (unsub2, s2)
    ∧ subscribed eventType s2 = (subscribed eventType s ++ [h1; h2])%list
    ∧ subscribed eventType (snd (unsub1 s2)) = (subscribed eventType s ++ [h2])%list
    ∧ subscribed eventType (snd (unsub2 s2)) = (subscribed eventType s ++ [h1])%list
    ∧ unsub1 (snd (unsub1 s2)) = (Returned tt, snd (unsub1 s2))
    ∧ subscribed eventType (snd (unsub2 (snd (unsub1 s2)))) = subscribed eventType s
    ∧ subscribed eventType (snd (unsub1 (snd (unsub2 s2)))) = subscribed eventType s.
Proof.
  intros Hinv Hz Hev.
  destruct (table_fresh eventType s Hinv) as [Hsorted Hbound].
  set (T := default [] (subscriptions s !! eventType)) in *.
  set (z := increment s) in *.
  assert (Forall (fun id' => id' ≠ (z + 1)%Z) (map fst T)) as Hf1 by apply Forall_lt_ne, Hbound.
  assert (Forall (fun id' => id' ≠ (z + 1 + 1)%Z) (map fst T)) as Hf2.
  { eapply Forall_impl; [exact Hbound|]. intros; simpl in *; lia. }
  eexists _, _, _, _.
  split; [apply on_below; [exact Hev|fold z; lia]|].
  split; [apply on_below; [exact Hev|cbn [increment]; fold z; lia]|].
  cbn [increment subscriptions]. fold z. rewrite lookup_insert_eq. cbn [default from_option id]. fold T.
  rewrite (put_fresh _ _ _ Hf1).
  assert (put (z + 1 + 1) h2 (T ++ [((z + 1)%Z, h1)])
          = (T ++ [((z + 1)%Z, h1); ((z + 1 + 1)%Z, h2)])%list) as Hput.
  { rewrite put_fresh.
    - rewrite <- app_assoc. reflexivity.
    - rewrite map_app. apply Forall_app. split; [exact Hf2|].
      constructor; [simpl; lia|constructor]. }
  rewrite Hput. rewrite insert_insert_eq.
  assert (∀ id (tb : list (Z * H)) (m : gmap string (list (Z * H))),
            subscribed eventType
              (snd (unsubscribe eventType id
                      {| increment := (z + 1 + 1)%Z;
                         subscriptions := <[eventType := tb]> m;
                         requestSubscriptions := requestSubscriptions s |}))
            = map snd (without id tb)) as Hun.
  { intros id tb m. unfold unsubscribe, subscribed. cbn [subscriptions].
    rewrite lookup_insert_eq. cbn [snd subscriptions]. rewrite lookup_insert_eq. reflexivity. }
  assert (without (z + 1) (T ++ [((z + 1)%Z, h1); ((z + 1 + 1)%Z, h2)])
          = (T ++ [((z + 1 + 1)%Z, h2)])%list) as Hw1.
  { rewrite without_app, (without_fresh _ _ Hf1). f_equal.
    unfold without. cbn [List.filter]. simpl. rewrite Z.eqb_refl. simpl.
    destruct (z + 1 =? z + 1 + 1)%Z eqn:He; [apply Z.eqb_eq in He; lia|reflexivity]. }
  assert (without (z + 1 + 1) (T ++ [((z + 1)%Z, h1); ((z + 1 + 1)%Z, h2)])
          = (T ++ [((z + 1)%Z, h1)])%list) as Hw2.
  { rewrite without_app, (without_fresh _ _ Hf2). f_equal.
    unfold without. cbn [List.filter]. simpl. rewrite Z.eqb_refl. simpl.
    destruct (z + 1 + 1 =? z + 1)%Z eqn:He; [apply Z.eqb_eq in He; lia|reflexivity]. }
  split; [unfold subscribed; cbn [subscriptions]; rewrite lookup_insert_eq; cbn [default from_option id];
          rewrite !map_app; reflexivity|].
  split; [rewrite Hun, Hw1, map_app; reflexivity|].
  split; [rewrite Hun, Hw2, map_app; reflexivity|].
  split.
  { unfold unsubscribe. cbn [subscriptions]. rewrite lookup_insert_eq.
    cbn [snd subscriptions increment requestSubscriptions]. rewrite lookup_insert_eq.
    rewrite without_idem, insert_insert_eq. reflexivity. }
  unfold unsubscribe at 2 4. cbn [subscriptions]. rewrite !lookup_insert_eq.
  cbn [snd subscriptions increment requestSubscriptions].
  rewrite !insert_insert_eq, Hw1, Hw2.
  split.
  - unfold unsubscribe, subscribed. cbn [subscriptions]. rewrite lookup_insert_eq.
    cbn [snd subscriptions]. rewrite lookup_insert_eq. cbn [default from_option id].
    rewrite without_app, (without_fresh _ _ Hf2).
    unfold without. cbn [List.filter]. simpl. rewrite Z.eqb_refl. simpl.
    rewrite app_nil_r. reflexivity.
  - unfold unsubscribe, subscribed. cbn [subscriptions]. rewrite lookup_insert_eq.
    cbn [snd subscriptions]. rewrite lookup_insert_eq. cbn [default from_option id].
    rewrite without_app, (without_fresh _ _ Hf1).
    unfold without. cbn [List.filter]. simpl. rewrite Z.eqb_refl. simpl.
    rewrite app_nil_r. reflexivity.
Qed.

End MockSubscriptionsFacts.

Section MockDispatchFacts.
Import MockSubscriptions.
Variable H : Type.
Variable call : H -> JsVal -> Outcome JsVal.
Implicit Types (s : MockSubscriptions.t H) (table : list (Z * H)) (id : Z) (h : H).


Lemma forEach_call_prefix (hs : list H) (data : JsVal) :
  ∃ rest,
    hs = (fst (forEach_call call hs data) ++ rest)%list
    ∧ match snd (forEach_call call hs data) with
      | Returned _ =>
          rest = [] ∧ Forall (fun h => ∃ v, call h data = Returned v) hs
      | Threw e =>
          ∃ before h,
            fst (forEach_call call hs data) = (before ++ [h])%list
            ∧ Forall (fun h' => ∃ v, call h' data = Returned v) before
            ∧ call h data = Threw e
      end.
Proof.
  induction hs as [|h hs IH]; cbn [forEach_call].
  - exists []. split; [reflexivity|]. split; [reflexivity|constructor].
  - destruct (call h data) as [v|e] eqn:Hc.
    + destruct (forEach_call call hs data) as [called o] eqn:Hrest.
      cbn [fst snd] in *. destruct IH as (rest & Heq & Ho).
      exists rest. split; [rewrite Heq at 1; reflexivity|].
      destruct o as [[]|e].
      * destruct Ho as [-> Hall]. split; [reflexivity|]. constructor; eauto.
      * destruct Ho as (before & h' & -> & Hall & Hthrow).
        exists (h :: before), h'. split; [reflexivity|].
        split; [constructor; eauto|exact Hthrow].
    + cbn [fst snd]. exists hs. split; [reflexivity|].
      exists [], h. split; [reflexivity|]. split; [constructor|exact Hc].
Qed.

(** X18. [mockEvent] calls the handlers subscribed to the event type in
    the order of their subscription, each with the data of the event, and
    stops at the first call that throws, which it lets through; so when no
    handler throws every handler is called.  An event type without a
    table, as every one is in a new client, makes it call nothing and
    return. *)
Theorem mockEvent_calls_in_order (eventType : string) (data : JsVal) s (increment0 : Z) :
  (∃ rest,
     subscribed eventType s = (fst (mockEvent call eventType data s) ++ rest)%list
     ∧ match snd (mockEvent call eventType data s) with
       | Returned _ =>
           rest = []
           ∧ Forall (fun h => ∃ v, call h data = Returned v) (subscribed eventType s)
       | Threw e =>
           ∃ before h,
             fst (mockEvent call eventType data s) = (before ++ [h])%list
             ∧ Forall (fun h' => ∃ v, call h' data = Returned v) before
             ∧ call h data = Threw e
       end)
  ∧ (Forall (fun h => ∃ v, call h data = Returned v) (subscribed eventType s) →
     mockEvent call eventType data s = (subscribed eventType s, Returned tt))
  ∧ (subscriptions s !! eventType = None → mockEvent call eventType data s = ([], Returned tt))
  ∧ mockEvent call eventType data (constructor increment0) = ([], Returned tt).
Proof.
  split; [apply forEach_call_prefix|]. split; [|split].
  - unfold mockEvent. generalize (subscribed eventType s).
    induction l as [|h l IH]; intros Hall; [reflexivity|].
    inversion Hall as [|? ? [v Hv] Hrest]; subst.
    cbn [forEach_call]. rewrite Hv, (IH Hrest). reflexivity.
  - intros Hnone. unfold mockEvent, subscribed. rewrite Hnone. reflexivity.
  - reflexivity.
Qed.

(** X19. Request handlers are kept by key alone: a second [onRequest] for
    a key replaces the handler of the first, and the unsubscribe returned
    by the first then removes the handler of the second; after it
    [mockRequest] finds no handler of the client's and returns
    [undefined], or, if the key names a member of [Object.prototype],
    calls that member.  This is for every key but [__proto__]. *)
Theorem onRequest_keeps_one_handler (requestKey : string) (h1 h2 : H) (data : JsVal) s :
  requestKey ≠ "__proto__" →
  ∃ unsub1 s1 unsub2 s2,
    onRequest requestKey h1 s = Some (unsub1, s1)
    ∧ onRequest requestKey h2 s1 = Some (unsub2, s2)
    ∧ mockRequest call requestKey data s1 = Handled (call h1 data)
    ∧ mockRequest call requestKey data s2 = Handled (call h2 data)
    ∧ mockRequest call requestKey data (unsub1 s2)
      = (if bool_decide (requestKey ∈ MockLocalStorage.object_prototype_names)
         then CallsInherited requestKey else NoHandler)
    ∧ unsub1 (unsub1 s2) = unsub1 s2
    ∧ subscriptions (unsub1 s2) = subscriptions s.
Proof.
  intros Hk. pose proof Hk as Hk'. apply String.eqb_neq in Hk'.
  unfold onRequest. rewrite Hk'. cbn [requestSubscriptions increment subscriptions].
  eexists _, _, _, _. split; [reflexivity|]. split; [reflexivity|].
  unfold mockRequest, onRequest_unsubscribe. cbn [requestSubscriptions subscriptions].
  rewrite !lookup_insert_eq, lookup_delete_eq, Hk'.
  split; [reflexivity|]. split; [reflexivity|]. split; [reflexivity|].
  split; [|reflexivity].
  f_equal. apply map_eq. intros k. destruct (decide (k = requestKey)) as [->|Hne].
  - rewrite !lookup_delete_eq. reflexivity.
  - rewrite !lookup_delete_ne by auto. reflexivity.
Qed.

End MockDispatchFacts.

(** ** [loadFrameWithURL] *)

Section LoadFrameFacts.
Import World LoadFrame.
Variable Ext : Type.
Implicit Types (s : LoadFrame.t Ext) (ev : LoadFrame.Event) (evs : list LoadFrame.Event).

Lemma urls_snoc evs ev :
  urls (evs ++ [ev])%list
  = (urls evs ++ match ev with AppCallsLoadFrameWithURL url => [url] | _ => [] end)%list.
Proof.
  induction evs as [|e evs IH]; [destruct ev; reflexivity|].
  destruct e; cbn [urls app]; rewrite IH; reflexivity.
Qed.

Lemma loadframe_run_snoc evs ev s : run (evs ++ [ev])%list s = step ev (run evs s).
Proof. unfold run. rewrite foldl_app. reflexivity. Qed.

Lemma progress_step (calls : list string) ev s :
  progress calls s →
  progress (calls ++ match ev with AppCallsLoadFrameWithURL url => [url] | _ => [] end)%list
           (step ev s).
Proof.
  unfold progress. intros Hp. destruct ev as [ev'|url|]; cbn [step].
  - cbn [client parked emitted]. rewrite step_handshake, app_nil_r.
    destruct (await (heap (client s)) (handshake (client s))) as [[parent|reason]|] eqn:Hw.
    + rewrite (await_extends _ _ _ _ (step_extends _ ev' (client s)) Hw). exact Hp.
    + rewrite (await_extends _ _ _ _ (step_extends _ ev' (client s)) Hw). exact Hp.
    + destruct Hp as [He Hparked].
      destruct (await (heap (DDClient.step ev' (client s))) (handshake (client s)))
        as [[parent|reason]|].
      * exists []. rewrite He, Hparked. split; reflexivity.
      * split; [exact He|]. exists []. rewrite Hparked. reflexivity.
      * split; assumption.
  - cbn [client parked emitted].
    destruct (await (heap (client s)) (handshake (client s))) as [[parent|reason]|].
    + destruct Hp as (done & -> & He). exists done.
      split; [rewrite app_assoc; reflexivity|exact He].
    + destruct Hp as (He & ended & ->). split; [exact He|].
      exists ended. rewrite app_assoc. reflexivity.
    + destruct Hp as [He ->]. split; [exact He|reflexivity].
  - rewrite app_nil_r. destruct (parked s) as [|url rest] eqn:Hparked.
    + rewrite Hparked. exact Hp.
    + destruct (await (heap (client s)) (handshake (client s))) as [[parent|reason]|] eqn:Hw;
        cbn [client parked emitted]; rewrite Hw.
      * destruct Hp as (done & -> & He). exists (done ++ [url])%list.
        split; [rewrite <- app_assoc; reflexivity|].
        rewrite He, map_app. reflexivity.
      * destruct Hp as (He & ended & ->). split; [exact He|].
        exists (ended ++ [url])%list. rewrite <- app_assoc. reflexivity.
      * rewrite Hparked. exact Hp.
Qed.

Lemma progress_run (h0 : Heap) (ext0 : Ext) evs :
  progress (urls evs) (run evs (constructor h0 ext0)).
Proof.
  induction evs as [|ev evs IH] using rev_ind.
  - unfold progress, run, constructor. cbn [foldl client parked emitted urls].
    destruct (await _ _) as [[?|?]|].
    + exists []. split; reflexivity.
    + split; [reflexivity|]. exists []. reflexivity.
    + split; reflexivity.
  - rewrite loadframe_run_snoc, urls_snoc. apply progress_step, IH.
Qed.

(** X20. [loadFrameWithURL] in any run of a freshly constructed client:
    nothing is emitted unless the handshake is fulfilled; what is emitted
    is one [loadFrameWithURL] message per call, for an initial stretch of
    the calls and in their order; while the handshake is pending every
    call is parked and none is lost; once it is fulfilled every call has
    either emitted or is still parked; if it is rejected nothing is ever
    emitted. *)
Theorem loadFrameWithURL_after_handshake (h0 : Heap) (ext0 : Ext) evs :
  let s := run evs (constructor h0 ext0) in
  (emitted s = []
   ∨ ∃ parent, await (heap (client s)) (handshake (client s)) = Some (Yields parent))
  ∧ (∃ done rest, urls evs = (done ++ rest)%list ∧ emitted s = map emit done)
  ∧ match await (heap (client s)) (handshake (client s)) with
    | None => parked s = urls evs
    | Some (Yields _) => (emitted s ++ map emit (parked s))%list = map emit (urls evs)
    | Some (Throws _) => emitted s = []
    end.
Proof.
  intros s. pose proof (progress_run h0 ext0 evs) as Hp. fold s in Hp.
  unfold progress in Hp.
  destruct (await (heap (client s)) (handshake (client s))) as [[parent|reason]|].
  - destruct Hp as (done & Hcalls & He). split; [right; eauto|].
    split; [exists done, (parked s); auto|].
    rewrite He, Hcalls, map_app. reflexivity.
  - destruct Hp as (He & ended & Hcalls). split; [left; exact He|].
    split; [|exact He]. exists [], (urls evs). rewrite He. split; reflexivity.
  - destruct Hp as [He Hparked]. split; [left; exact He|].
    split; [|exact Hparked]. exists [], (urls evs). rewrite He. split; reflexivity.
Qed.

End LoadFrameFacts.

(** ** Instances of the further properties that have hypotheses *)

Section MoreWitnesses.
Import Samples.

(** X6 on the sample registry: [modal_close] with the side panels alone,
    then with the modals as well. *)
Lemma isEventEnabled_monotone_witness :
  fst (isEventEnabled sample_enabledEvents sample_features "modal_close" ["side_panels"]
         (cell_after sample_enabledEvents sample_features [])) = Returned true
  ∧ fst (isEventEnabled sample_enabledEvents sample_features "modal_close"
           ["modals"; "side_panels"]
           (cell_after sample_enabledEvents sample_features [])) = Returned true.
Proof.
  split; [vm_compute; reflexivity|].
  apply (isEventEnabled_monotone sample_enabledEvents sample_features [] []
           "modal_close" ["side_panels"] ["modals"; "side_panels"]).
  - intros f Hf. apply list_elem_of_singleton in Hf. subst f.
    apply list_elem_of_further, list_elem_of_here.
  - vm_compute. reflexivity.
Defined.

(** X7 on the sample registry: a list and the same features repeated in
    another order. *)
Lemma isEventEnabled_same_members_witness :
  fst (isEventEnabled sample_enabledEvents sample_features "modal_action"
         ["modals"; "side_panels"]
         (cell_after sample_enabledEvents sample_features []))
  = fst (isEventEnabled sample_enabledEvents sample_features "modal_action"
           ["side_panels"; "modals"; "side_panels"]
           (cell_after sample_enabledEvents sample_features [("modal_close", [])])).
Proof.
  apply (isEventEnabled_same_members sample_enabledEvents sample_features
           [] [("modal_close", [])] "modal_action"
           ["modals"; "side_panels"] ["side_panels"; "modals"; "side_panels"]).
  intros f. rewrite !elem_of_cons. tauto.
Defined.

(** X10 at three calls. *)
Lemma uniqueInt_counts_witness :
  UniqueInt.calls 3 UniqueInt.increment0 = [1%Z; 2%Z; 3%Z]
  ∧ NoDup (UniqueInt.calls 3 UniqueInt.increment0).
Proof.
  destruct (uniqueInt_counts 3) as (Hcalls & Hdistinct & _); [vm_compute; discriminate|].
  split; [exact Hcalls|exact Hdistinct].
Defined.

(** X12 at a stored value and at the empty string. *)
Lemma setItem_getItem_witness :
  MockLocalStorage.getItem "token"
    (MockLocalStorage.setItem "token" "abc" MockLocalStorage.constructor)
  = MockLocalStorage.Value "abc"
  ∧ MockLocalStorage.getItem "token"
      (MockLocalStorage.setItem "token" EmptyString MockLocalStorage.constructor)
    = MockLocalStorage.Null.
Proof.
  split.
  - destruct (setItem_getItem MockLocalStorage.constructor "token" "abc") as [Hread _];
      [discriminate|exact Hread].
  - destruct (setItem_getItem MockLocalStorage.constructor "token" EmptyString) as [Hread _];
      [discriminate|exact Hread].
Defined.

Lemma constructor_ids_handed_out (H : Type) :
  MockSubscriptions.ids_handed_out (@MockSubscriptions.constructor H 0).
Proof.
  split; [reflexivity|]. intros eventType table Ht.
  unfold MockSubscriptions.constructor in Ht. cbn in Ht.
  rewrite lookup_empty in Ht. discriminate.
Qed.

(** X15 at the first subscription of a new client; handlers are named by
    numbers. *)
Lemma on_subscribes_last_witness :
  ∃ unsub s',
    MockSubscriptions.on "modal_close" 7 (MockSubscriptions.constructor 0) = Some (unsub, s')
    ∧ MockSubscriptions.subscribed "modal_close" s' = [7]
    ∧ MockSubscriptions.subscribed "modal_close" (snd (unsub s')) = [].
Proof.
  destruct (on_subscribes_last nat "modal_close" 7 (MockSubscriptions.constructor 0))
    as (unsub & s' & Hon & Hsub & _ & _ & _ & _ & Hback & _).
  - apply constructor_ids_handed_out.
  - reflexivity.
  - apply (proj1 (bool_decide_eq_false _)). vm_compute. reflexivity.
  - exists unsub, s'. split; [exact Hon|]. split; [exact Hsub|exact Hback].
Defined.

(** X16 with the same handler subscribed twice. *)
Lemma unsubscribe_removes_own_witness :
  ∃ unsub1 s1 unsub2 s2,
    MockSubscriptions.on "modal_close" 7 (MockSubscriptions.constructor 0) = Some (unsub1, s1)
    ∧ MockSubscriptions.on "modal_close" 7 s1 = Some (unsub2, s2)
    ∧ MockSubscriptions.subscribed "modal_close" s2 = [7; 7]
    ∧ MockSubscriptions.subscribed "modal_close" (snd (unsub1 s2)) = [7].
Proof.
  destruct (unsubscribe_removes_own nat "modal_close" 7 7 (MockSubscriptions.constructor 0))
    as (unsub1 & s1 & unsub2 & s2 & Hon1 & Hon2 & Hboth & Hone & _).
  - apply constructor_ids_handed_out.
  - reflexivity.
  - apply (proj1 (bool_decide_eq_false _)). vm_compute. reflexivity.
  - exists unsub1, s1, unsub2, s2. auto.
Defined.

(** X19 at a request key of the modal tests; a handler answers with its
    number. *)
Lemma onRequest_keeps_one_handler_witness :
  ∃ unsub1 s1 unsub2 s2,
    MockSubscriptions.onRequest "open_modal" 1 (MockSubscriptions.constructor 0)
    = Some (unsub1, s1)
    ∧ MockSubscriptions.onRequest "open_modal" 2 s1 = Some (unsub2, s2)
    ∧ MockSubscriptions.mockRequest (fun h _ => Returned (JNum (Z.of_nat h)))
        "open_modal" JNull s2
      = MockSubscriptions.Handled (Returned (JNum 2))
    ∧ MockSubscriptions.mockRequest (fun h _ => Returned (JNum (Z.of_nat h)))
        "open_modal" JNull (unsub1 s2)
      = MockSubscriptions.NoHandler.
Proof.
  destruct (onRequest_keeps_one_handler nat (fun h _ => Returned (JNum (Z.of_nat h)))
              "open_modal" 1 2 JNull (MockSubscriptions.constructor 0))
    as (unsub1 & s1 & unsub2 & s2 & H1 & H2 & _ & Hsecond & Hgone & _); [discriminate|].
  exists unsub1, s1, unsub2, s2. auto.
Defined.

End MoreWitnesses.
